(** * Screen recorder: the recording hook, trim validation, watch analytics
      and video storage, embedded from the TypeScript sources.

    - [Recorder]: [hooks/useScreenRecorder.ts]
    - [Trimmer]:  [components/VideoTrimmer.tsx] (handleTrim) and [lib/ffmpeg.ts]
    - [Db]:       [lib/db.ts]
    - [Storage]:  [lib/storage.ts] and [app/api/video/[id]/route.ts]            *)

From Stdlib Require Import ZArith Floats Lia Ascii DecimalString.
From stdpp Require Import base option list strings gmap.

(* ===================================================================== *)
(** ** The recording hook                                                  *)
(* ===================================================================== *)

Module Recorder.

(** A [Blob]: its bytes and its media type. [new Blob(parts, {type})]
    concatenates the parts in order. *)
Record Blob := MkBlob { blob_bytes : list Byte.byte; blob_type : string }.

Definition blob_size (b : Blob) : nat := length (blob_bytes b).

Definition new_Blob (parts : list Blob) (type : string) : Blob :=
  MkBlob (concat (blob_bytes <$> parts)) type.

(** Browser objects. They are shared and mutated in place, so they live in
    stores indexed by object identity; a reference is an index. *)
Inductive TrackKind := VideoTrack | AudioTrack.
Inductive ReadyState := Live | Ended.

(** [onended] is the handler attached by [startRecording]: the closure
    [() => stopRecording()], which holds the [isRecording] value of the render
    in which that [stopRecording] was created. *)
Record Track := MkTrack {
  kind : TrackKind;
  enabled : bool;
  readyState : ReadyState;
  onended : option bool }.

Inductive RecorderState := Inactive | Recording | Paused.

#[global] Instance ReadyState_eq_dec : EqDecision ReadyState.
Proof. solve_decision. Defined.
#[global] Instance RecorderState_eq_dec : EqDecision RecorderState.
Proof. solve_decision. Defined.

Record MediaRecorder := MkMediaRecorder {
  rec_stream : list nat;
  rec_mimeType : string;
  rec_state : RecorderState }.

(** An interval created by [setInterval]; its callback closes over the
    [isPaused] constant of the render that called [startRecording]. *)
Record Interval := MkInterval { iv_active : bool; iv_isPaused : bool }.

(** The hook: six React state variables, seven refs, the browser heap, and
    what the memoised [startRecording] holds. [startRecording] is
    [useCallback(..., [isPaused])]: it is re-created only in a render in
    which [isPaused] differs from the render before, and it closes over the
    [stopRecording] of that render, itself [useCallback(..., [isRecording])].
    [memoIsRecording] is the [isRecording] constant of that [stopRecording]:
    the [isRecording] of the render in which [isPaused] last changed, of the
    first render before that. *)
Record Hook := MkHook {
  isRecording : bool;
  isPaused : bool;
  recordingTime : Z;
  videoBlob : option Blob;
  error : option string;
  isMicrophoneEnabled : bool;
  mediaRecorderRef : option nat;
  streamRef : option (list nat);
  audioTrackRef : option nat;
  chunksRef : list Blob;
  timerRef : option nat;
  startTimeRef : Z;
  pausedTimeRef : Z;
  tracks : list Track;
  recorders : list MediaRecorder;
  intervals : list Interval;
  memoIsRecording : bool }.

Definition initial : Hook :=
  MkHook false false 0 None None true None None None [] None 0 0 [] [] [] false.

(** Field updates. *)
Definition setIsRecording (v : bool) (s : Hook) : Hook :=
  MkHook v (isPaused s) (recordingTime s) (videoBlob s) (error s)
    (isMicrophoneEnabled s) (mediaRecorderRef s) (streamRef s) (audioTrackRef s)
    (chunksRef s) (timerRef s) (startTimeRef s) (pausedTimeRef s)
    (tracks s) (recorders s) (intervals s) (memoIsRecording s).
(** [setIsPaused]: a value that differs from the current one makes the next
    render re-create [startRecording], around the [stopRecording] of that
    render. Every handler that sets both flags sets [isRecording] first, so
    the [isRecording] of that render is the one already set here. *)
Definition setIsPaused (v : bool) (s : Hook) : Hook :=
  MkHook (isRecording s) v (recordingTime s) (videoBlob s) (error s)
    (isMicrophoneEnabled s) (mediaRecorderRef s) (streamRef s) (audioTrackRef s)
    (chunksRef s) (timerRef s) (startTimeRef s) (pausedTimeRef s)
    (tracks s) (recorders s) (intervals s)
    (if Bool.eqb v (isPaused s) then memoIsRecording s else isRecording s).
Definition setRecordingTime (v : Z) (s : Hook) : Hook :=
  MkHook (isRecording s) (isPaused s) v (videoBlob s) (error s)
    (isMicrophoneEnabled s) (mediaRecorderRef s) (streamRef s) (audioTrackRef s)
    (chunksRef s) (timerRef s) (startTimeRef s) (pausedTimeRef s)
    (tracks s) (recorders s) (intervals s) (memoIsRecording s).
Definition setVideoBlob (v : option Blob) (s : Hook) : Hook :=
  MkHook (isRecording s) (isPaused s) (recordingTime s) v (error s)
    (isMicrophoneEnabled s) (mediaRecorderRef s) (streamRef s) (audioTrackRef s)
    (chunksRef s) (timerRef s) (startTimeRef s) (pausedTimeRef s)
    (tracks s) (recorders s) (intervals s) (memoIsRecording s).
Definition setError (v : option string) (s : Hook) : Hook :=
  MkHook (isRecording s) (isPaused s) (recordingTime s) (videoBlob s) v
    (isMicrophoneEnabled s) (mediaRecorderRef s) (streamRef s) (audioTrackRef s)
    (chunksRef s) (timerRef s) (startTimeRef s) (pausedTimeRef s)
    (tracks s) (recorders s) (intervals s) (memoIsRecording s).
Definition setIsMicrophoneEnabled (v : bool) (s : Hook) : Hook :=
  MkHook (isRecording s) (isPaused s) (recordingTime s) (videoBlob s) (error s)
    v (mediaRecorderRef s) (streamRef s) (audioTrackRef s)
    (chunksRef s) (timerRef s) (startTimeRef s) (pausedTimeRef s)
    (tracks s) (recorders s) (intervals s) (memoIsRecording s).
Definition set_mediaRecorderRef (v : option nat) (s : Hook) : Hook :=
  MkHook (isRecording s) (isPaused s) (recordingTime s) (videoBlob s) (error s)
    (isMicrophoneEnabled s) v (streamRef s) (audioTrackRef s)
    (chunksRef s) (timerRef s) (startTimeRef s) (pausedTimeRef s)
    (tracks s) (recorders s) (intervals s) (memoIsRecording s).
Definition set_streamRef (v : option (list nat)) (s : Hook) : Hook :=
  MkHook (isRecording s) (isPaused s) (recordingTime s) (videoBlob s) (error s)
    (isMicrophoneEnabled s) (mediaRecorderRef s) v (audioTrackRef s)
    (chunksRef s) (timerRef s) (startTimeRef s) (pausedTimeRef s)
    (tracks s) (recorders s) (intervals s) (memoIsRecording s).
Definition set_audioTrackRef (v : option nat) (s : Hook) : Hook :=
  MkHook (isRecording s) (isPaused s) (recordingTime s) (videoBlob s) (error s)
    (isMicrophoneEnabled s) (mediaRecorderRef s) (streamRef s) v
    (chunksRef s) (timerRef s) (startTimeRef s) (pausedTimeRef s)
    (tracks s) (recorders s) (intervals s) (memoIsRecording s).
Definition set_chunksRef (v : list Blob) (s : Hook) : Hook :=
  MkHook (isRecording s) (isPaused s) (recordingTime s) (videoBlob s) (error s)
    (isMicrophoneEnabled s) (mediaRecorderRef s) (streamRef s) (audioTrackRef s)
    v (timerRef s) (startTimeRef s) (pausedTimeRef s)
    (tracks s) (recorders s) (intervals s) (memoIsRecording s).
Definition set_timerRef (v : option nat) (s : Hook) : Hook :=
  MkHook (isRecording s) (isPaused s) (recordingTime s) (videoBlob s) (error s)
    (isMicrophoneEnabled s) (mediaRecorderRef s) (streamRef s) (audioTrackRef s)
    (chunksRef s) v (startTimeRef s) (pausedTimeRef s)
    (tracks s) (recorders s) (intervals s) (memoIsRecording s).
Definition set_startTimeRef (v : Z) (s : Hook) : Hook :=
  MkHook (isRecording s) (isPaused s) (recordingTime s) (videoBlob s) (error s)
    (isMicrophoneEnabled s) (mediaRecorderRef s) (streamRef s) (audioTrackRef s)
    (chunksRef s) (timerRef s) v (pausedTimeRef s)
    (tracks s) (recorders s) (intervals s) (memoIsRecording s).
Definition set_pausedTimeRef (v : Z) (s : Hook) : Hook :=
  MkHook (isRecording s) (isPaused s) (recordingTime s) (videoBlob s) (error s)
    (isMicrophoneEnabled s) (mediaRecorderRef s) (streamRef s) (audioTrackRef s)
    (chunksRef s) (timerRef s) (startTimeRef s) v
    (tracks s) (recorders s) (intervals s) (memoIsRecording s).
Definition set_tracks (v : list Track) (s : Hook) : Hook :=
  MkHook (isRecording s) (isPaused s) (recordingTime s) (videoBlob s) (error s)
    (isMicrophoneEnabled s) (mediaRecorderRef s) (streamRef s) (audioTrackRef s)
    (chunksRef s) (timerRef s) (startTimeRef s) (pausedTimeRef s)
    v (recorders s) (intervals s) (memoIsRecording s).
Definition set_recorders (v : list MediaRecorder) (s : Hook) : Hook :=
  MkHook (isRecording s) (isPaused s) (recordingTime s) (videoBlob s) (error s)
    (isMicrophoneEnabled s) (mediaRecorderRef s) (streamRef s) (audioTrackRef s)
    (chunksRef s) (timerRef s) (startTimeRef s) (pausedTimeRef s)
    (tracks s) v (intervals s) (memoIsRecording s).
Definition set_intervals (v : list Interval) (s : Hook) : Hook :=
  MkHook (isRecording s) (isPaused s) (recordingTime s) (videoBlob s) (error s)
    (isMicrophoneEnabled s) (mediaRecorderRef s) (streamRef s) (audioTrackRef s)
    (chunksRef s) (timerRef s) (startTimeRef s) (pausedTimeRef s)
    (tracks s) (recorders s) v (memoIsRecording s).

(** The hook after a render that re-created [startRecording] while
    [isRecording] was [v]; nothing else differs. *)
Definition set_memoIsRecording (v : bool) (s : Hook) : Hook :=
  MkHook (isRecording s) (isPaused s) (recordingTime s) (videoBlob s) (error s)
    (isMicrophoneEnabled s) (mediaRecorderRef s) (streamRef s) (audioTrackRef s)
    (chunksRef s) (timerRef s) (startTimeRef s) (pausedTimeRef s)
    (tracks s) (recorders s) (intervals s) v.

(** *** Browser object methods *)

(** [track.stop()] ends the track; it does not fire [ended]. *)
Definition track_stop (t : Track) : Track :=
  MkTrack (kind t) (enabled t) Ended (onended t).
Definition track_set_enabled (v : bool) (t : Track) : Track :=
  MkTrack (kind t) v (readyState t) (onended t).
Definition track_set_onended (h : option bool) (t : Track) : Track :=
  MkTrack (kind t) (enabled t) (readyState t) h.
Definition track_end (t : Track) : Track := track_stop t.

(** [stream.getTracks().forEach(track => track.stop())] *)
Definition stop_tracks (ids : list nat) (ts : list Track) : list Track :=
  foldl (fun acc i => alter track_stop i acc) ts ids.

Definition rec_set_state (st : RecorderState) (r : MediaRecorder) : MediaRecorder :=
  MkMediaRecorder (rec_stream r) (rec_mimeType r) st.

(** [recorder.stop()]: the recorder becomes inactive (a no-op on an inactive
    one); its final [dataavailable] and [stop] events arrive later. *)
Definition recorder_stop (r : MediaRecorder) : MediaRecorder :=
  rec_set_state Inactive r.

(** [recorder.pause()] and [recorder.resume()] throw InvalidStateError on an
    inactive recorder: [None]. *)
Definition recorder_pause (r : MediaRecorder) : option MediaRecorder :=
  match rec_state r with
  | Inactive => None
  | _ => Some (rec_set_state Paused r)
  end.
Definition recorder_resume (r : MediaRecorder) : option MediaRecorder :=
  match rec_state r with
  | Inactive => None
  | _ => Some (rec_set_state Recording r)
  end.

(** *** What the browser answers to one [startRecording] call *)

Inductive DisplayResult :=
| DisplayGranted (videoTracks : nat)
| DisplayRejected (message : option string).
  (* [Some m]: an Error with message m; [None]: a thrown non-Error value *)

Inductive MicResult :=
| MicGranted (audioTracks : nat)
| MicRejected.

Record Env := MkEnv {
  getDisplayMedia : DisplayResult;
  getUserMedia : MicResult;
  isTypeSupported : string -> bool }.

Definition fresh_track (k : TrackKind) : Track := MkTrack k true Live None.

(** The [catch (err)] of [startRecording]. *)
Definition start_failed (message : option string) (s : Hook) : Hook :=
  setError (Some (default "Failed to start recording" message)) s.

Definition pick_mimeType (supported : string -> bool) : string :=
  let m := "video/webm;codecs=vp9,opus" in
  let m := if negb (supported m) then "video/webm;codecs=vp8,opus" else m in
  let m := if negb (supported m) then "video/webm" else m in
  m.

(** The text of the [NotSupportedError] thrown by [new MediaRecorder] for a
    media type the browser cannot record. The wording is the browser's
    (Chromium's is given); no property depends on it. *)
Definition not_supported_message (mimeType : string) : string :=
  "Failed to construct 'MediaRecorder': Failed to initialize native " +:+
  "MediaRecorder the type provided (" +:+ mimeType +:+ ") is not supported.".

(** Can [new MediaRecorder(stream, options)] be constructed: the constructor
    throws exactly when [isTypeSupported] is false of [options.mimeType]. *)
Definition encoder_available (env : Env) : bool :=
  isTypeSupported env (pick_mimeType (isTypeSupported env)).

(** [startRecording(enableMicrophone)], the two awaits answered by [env] and
    [Date.now()] read as [now] once the recorder has started. The callback
    is the memoised one: the [isPaused] it closes over is the current one
    (its dependency), and its [stopRecording] holds [memoIsRecording]; the
    first goes into the interval callback, the second into the [onended]
    handler. *)
Definition startRecording (enableMicrophone : bool) (now : Z) (env : Env)
    (s0 : Hook) : Hook :=
  let render_isPaused := isPaused s0 in
  let render_isRecording := memoIsRecording s0 in
  let s := setError None s0 in
  let s := set_chunksRef [] s in
  let s := setIsMicrophoneEnabled enableMicrophone s in
  match getDisplayMedia env with
  | DisplayRejected m => start_failed m s
  | DisplayGranted nv =>
    let videoIds := seq (length (tracks s)) nv in
    let s := set_tracks (tracks s ++ replicate nv (fresh_track VideoTrack)) s in
    (* microphone *)
    let '(audioIds, s) :=
      if enableMicrophone then
        match getUserMedia env with
        | MicGranted na =>
          let ids := seq (length (tracks s)) na in
          let s := set_tracks (tracks s ++ replicate na (fresh_track AudioTrack)) s in
          let s := match ids with
                   | a :: _ => set_audioTrackRef (Some a) s
                   | [] => s
                   end in
          (ids, s)
        | MicRejected => ([], setIsMicrophoneEnabled false s)
        end
      else ([], s) in
    let combined := videoIds ++ audioIds in
    let s := set_streamRef (Some combined) s in
    let mimeType := pick_mimeType (isTypeSupported env) in
    if negb (encoder_available env) then
      (* [new MediaRecorder] throws: the tracks stay as acquired *)
      start_failed (Some (not_supported_message mimeType)) s
    else
    let rid := length (recorders s) in
    let mediaRecorder := MkMediaRecorder combined mimeType Inactive in
    let s := set_recorders (recorders s ++ [mediaRecorder]) s in
    let s := set_mediaRecorderRef (Some rid) s in
    (* mediaRecorder.start(1000) *)
    let s := set_recorders (alter (rec_set_state Recording) rid (recorders s)) s in
    let s := setIsRecording true s in
    let s := setIsPaused false s in
    let s := set_startTimeRef (now - pausedTimeRef s)%Z s in
    let s := set_pausedTimeRef 0%Z s in
    let timer := length (intervals s) in
    let s := set_intervals (intervals s ++ [MkInterval true render_isPaused]) s in
    let s := set_timerRef (Some timer) s in
    match videoIds with
    | v :: _ =>
      set_tracks (alter (track_set_onended (Some render_isRecording)) v (tracks s)) s
    | [] =>
      start_failed (Some "Cannot set properties of undefined (setting 'onended')") s
    end
  end.

(** [clearInterval(timerRef.current); timerRef.current = null] when set. *)
Definition clear_timer (s : Hook) : Hook :=
  match timerRef s with
  | Some i =>
    set_timerRef None
      (set_intervals (alter (fun iv => MkInterval false (iv_isPaused iv)) i (intervals s)) s)
  | None => s
  end.

(** [stopRecording], as created in a render whose [isRecording] was
    [render_isRecording]. *)
Definition stopRecording_in (render_isRecording : bool) (s : Hook) : Hook :=
  match mediaRecorderRef s with
  | Some rid =>
    if render_isRecording then
      let s := set_recorders (alter recorder_stop rid (recorders s)) s in
      let s := setIsRecording false s in
      let s := setIsPaused false s in
      clear_timer s
    else s
  | None => s
  end.

(** [stopRecording] is re-created with every change of [isRecording]: the
    one handed to the controls holds the current value. *)
Definition stopRecording (s : Hook) : Hook := stopRecording_in (isRecording s) s.

Definition pauseRecording (now : Z) (s : Hook) : Hook :=
  match mediaRecorderRef s with
  | Some rid =>
    if isRecording s && negb (isPaused s) then
      match recorders s !! rid ≫= recorder_pause with
      | Some r =>
        let s := set_recorders (<[rid := r]> (recorders s)) s in
        let s := setIsPaused true s in
        set_pausedTimeRef (now - startTimeRef s)%Z s
      | None => s
      end
    else s
  | None => s
  end.

Definition resumeRecording (now : Z) (s : Hook) : Hook :=
  match mediaRecorderRef s with
  | Some rid =>
    if isRecording s && isPaused s then
      match recorders s !! rid ≫= recorder_resume with
      | Some r =>
        let s := set_recorders (<[rid := r]> (recorders s)) s in
        let s := setIsPaused false s in
        let s := set_startTimeRef (now - pausedTimeRef s)%Z s in
        set_pausedTimeRef 0%Z s
      | None => s
      end
    else s
  | None => s
  end.

(** The stream release shared by [onstop] and [resetRecording]. *)
Definition release_stream (s : Hook) : Hook :=
  match streamRef s with
  | Some ids => set_streamRef None (set_tracks (stop_tracks ids (tracks s)) s)
  | None => s
  end.

Definition resetRecording (s : Hook) : Hook :=
  let s := match mediaRecorderRef s with
           | Some rid =>
             if isRecording s
             then set_recorders (alter recorder_stop rid (recorders s)) s
             else s
           | None => s
           end in
  let s := release_stream s in
  let s := set_audioTrackRef None s in
  let s := clear_timer s in
  let s := setIsRecording false s in
  let s := setIsPaused false s in
  let s := setRecordingTime 0%Z s in
  let s := setVideoBlob None s in
  let s := setError None s in
  let s := setIsMicrophoneEnabled true s in
  let s := set_chunksRef [] s in
  set_pausedTimeRef 0%Z s.

Definition toggleMicrophone (s : Hook) : Hook :=
  if negb (isRecording s) then s
  else match audioTrackRef s with
       | None => s
       | Some a =>
         match tracks s !! a with
         | Some audioTrack =>
           let v := negb (enabled audioTrack) in
           let s := set_tracks (<[a := track_set_enabled v audioTrack]> (tracks s)) s in
           setIsMicrophoneEnabled v s
         | None => s
         end
       end.

(** *** Handlers installed by [startRecording] *)

(** [mediaRecorder.ondataavailable]; [event.data] may be absent. *)
Definition ondataavailable (data : option Blob) (s : Hook) : Hook :=
  match data with
  | Some d =>
    if bool_decide (0 < blob_size d)
    then set_chunksRef (chunksRef s ++ [d]) s
    else s
  | None => s
  end.

(** [mediaRecorder.onstop] *)
Definition onstop (s : Hook) : Hook :=
  let blob := new_Blob (chunksRef s) "video/webm" in
  let s := setVideoBlob (Some blob) s in
  let s := set_chunksRef [] s in
  let s := release_stream s in
  set_audioTrackRef None s.

(** [mediaRecorder.onerror] *)
Definition onerror (s : Hook) : Hook :=
  setError (Some "Recording error occurred") s.

(** One firing of interval [i] at time [now]. *)
Definition tick (i : nat) (now : Z) (s : Hook) : Hook :=
  match intervals s !! i with
  | Some iv =>
    if iv_active iv && negb (iv_isPaused iv)
    then setRecordingTime ((now - startTimeRef s) / 1000)%Z s
    else s
  | None => s
  end.

(** The browser ends track [t] (the user stops sharing): the track's
    [onended] handler runs, if it has one. *)
Definition track_ended (t : nat) (s : Hook) : Hook :=
  match tracks s !! t with
  | Some tr =>
    let s := set_tracks (<[t := track_end tr]> (tracks s)) s in
    match onended tr with
    | Some render_isRecording => stopRecording_in render_isRecording s
    | None => s
    end
  | None => s
  end.

(** *** Event traces *)

Inductive Event :=
| Start (enableMicrophone : bool) (now : Z) (env : Env)
| Stop
| Pause (now : Z)
| Resume (now : Z)
| Reset
| ToggleMicrophone
| DataAvailable (data : option Blob)
| RecorderStopped
| RecorderError
| Tick (interval : nat) (now : Z)
| TrackEnded (track : nat).

Definition handle (e : Event) (s : Hook) : Hook :=
  match e with
  | Start mic now env => startRecording mic now env s
  | Stop => stopRecording s
  | Pause now => pauseRecording now s
  | Resume now => resumeRecording now s
  | Reset => resetRecording s
  | ToggleMicrophone => toggleMicrophone s
  | DataAvailable d => ondataavailable d s
  | RecorderStopped => onstop s
  | RecorderError => onerror s
  | Tick i now => tick i now s
  | TrackEnded t => track_ended t s
  end.

Definition run (evs : list Event) (s : Hook) : Hook :=
  foldl (fun acc e => handle e acc) s evs.

(** *** Observations used by the properties *)

Definition open_recorders (s : Hook) : list MediaRecorder :=
  filter (fun r => rec_state r ≠ Inactive) (recorders s).

Definition live_tracks (s : Hook) : list Track :=
  filter (fun t => readyState t = Live) (tracks s).

Definition is_live (s : Hook) (i : nat) : bool :=
  match tracks s !! i with
  | Some t => bool_decide (readyState t = Live)
  | None => false
  end.

(** *** The start button of [components/RecorderControls.tsx]

    The component keeps the user's microphone preference and passes it to
    [startRecording]; the hook has no way to change it. *)
Record Controls := MkControls { microphonePreference : bool; hook : Hook }.

Definition clickStart (now : Z) (env : Env) (c : Controls) : Controls :=
  MkControls (microphonePreference c)
    (startRecording (microphonePreference c) now env (hook c)).

(** *** Vocabulary of the properties *)

(** Segments delivered by the encoder along a trace, and those among them
    that are not empty. *)
Definition delivered (evs : list Event) : list Blob :=
  evs ≫= fun e => match e with
                  | DataAvailable (Some d) => [d]
                  | _ => []
                  end.

Definition appended (evs : list Event) : list Blob :=
  filter (fun d => 0 < blob_size d) (delivered evs).

(** Events that neither finalize nor restart the segment buffer. *)
Definition keeps_buffer (e : Event) : Prop :=
  match e with
  | Start _ _ _ | Reset | RecorderStopped => False
  | _ => True
  end.

(** Events of a session already started. *)
Definition in_session (e : Event) : Prop :=
  match e with
  | Start _ _ _ => False
  | _ => True
  end.

(** The observable microphone flag mirrors the audio track's flag. *)
Definition lockstep (s : Hook) : Prop :=
  match audioTrackRef s with
  | Some a => exists t, tracks s !! a = Some t /\ enabled t = isMicrophoneEnabled s
  | None => True
  end.

(** The clock of a session as the specification describes it: running
    since [Some t0], or paused ([None]), with the milliseconds accumulated
    before. A pause of a running session adds the time since [t0]; a resume
    of a paused one restarts the clock; nothing else moves it. *)
Definition clock_step (e : Event) (c : option Z * Z) : option Z * Z :=
  match e, c with
  | Pause t, (Some t0, acc) => (None, (acc + (t - t0))%Z)
  | Resume t, (None, acc) => (Some t, acc)
  | _, _ => c
  end.

(** Wall-clock milliseconds spent recording and not paused along a trace
    observed at time [now]. *)
Fixpoint active_ms (since : option Z) (acc : Z) (evs : list Event) (now : Z) : Z :=
  match evs with
  | [] => match since with
          | Some t0 => acc + (now - t0)
          | None => acc
          end
  | e :: evs =>
    let c := clock_step e (since, acc) in
    active_ms c.1 c.2 evs now
  end.

(** Events that leave a running session running. *)
Definition keeps_running (e : Event) : Prop :=
  match e with
  | Pause _ | Resume _ | Tick _ _ | DataAvailable _ | ToggleMicrophone
  | RecorderError => True
  | _ => False
  end.

(** The hook's clock agrees with a session that runs since [since] ([None]
    while paused) with [acc] milliseconds accumulated before. *)
Definition clocked (s : Hook) (since : option Z) (acc : Z) : Prop :=
  isRecording s = true /\
  (exists rid r, mediaRecorderRef s = Some rid /\ recorders s !! rid = Some r /\
                 rec_state r <> Inactive) /\
  match since with
  | Some t0 => isPaused s = false /\ startTimeRef s = (t0 - acc)%Z
  | None => isPaused s = true /\ pausedTimeRef s = acc
  end.

(** A browser that grants the screen (one video track) and the microphone
    (one audio track) and supports every media type. *)
Definition granting : Env := MkEnv (DisplayGranted 1) (MicGranted 1) (fun _ => true).

End Recorder.

(* ===================================================================== *)
(** ** Trim validation and the trim engine                                 *)
(* ===================================================================== *)

Module Trimmer.

Import Recorder.

(** JavaScript numbers are IEEE-754 doubles: Rocq's primitive floats. *)
Definition isNaN (x : float) : bool := PrimFloat.is_nan x.
Definition isFinite (x : float) : bool :=
  negb (PrimFloat.is_nan x) && negb (PrimFloat.is_infinity x).

(** The double written [0.1] in the source. *)
Definition min_length : float := 0x1.999999999999ap-4%float.

(** What [setError] can be given by the trimmer component. *)
Inductive ErrorMessage :=
| InitFailed
| InvalidNumbers
| NegativeStart
| EndAfterDuration (duration : float)
| StartNotBeforeEnd
| TooShort
| TrimFailed (message : string).

Definition message_text (toFixed2 : float -> string) (e : ErrorMessage) : string :=
  match e with
  | InitFailed => "Failed to initialize video trimmer. Please refresh the page."
  | InvalidNumbers => "Please enter valid numbers for start and end times"
  | NegativeStart => "Start time must be >= 0"
  | EndAfterDuration d => "End time must be <= " +:+ toFixed2 d +:+ " seconds"
  | StartNotBeforeEnd => "Start time must be less than end time"
  | TooShort => "Trimmed video must be at least 0.1 seconds long"
  | TrimFailed m => m
  end.

(** The validation block of [handleTrim]; [start] and [end_] are the results
    of [parseFloat] on the two text fields. *)
Definition validate (start end_ duration : float) : option ErrorMessage :=
  if isNaN start || isNaN end_ then Some InvalidNumbers
  else if PrimFloat.ltb start 0 then Some NegativeStart
  else if PrimFloat.ltb duration end_ then Some (EndAfterDuration duration)
  else if PrimFloat.leb end_ start then Some StartNotBeforeEnd
  else if PrimFloat.ltb (PrimFloat.sub end_ start) min_length then Some TooShort
  else None.

(** The five checks as the specification words them: the first one rejects
    non-finite times. Only used to compare with [validate]. *)
Definition validate_as_specified (start end_ duration : float) : option ErrorMessage :=
  if negb (isFinite start) || negb (isFinite end_) then Some InvalidNumbers
  else if PrimFloat.ltb start 0 then Some NegativeStart
  else if PrimFloat.ltb duration end_ then Some (EndAfterDuration duration)
  else if PrimFloat.leb end_ start then Some StartNotBeforeEnd
  else if PrimFloat.ltb (PrimFloat.sub end_ start) min_length then Some TooShort
  else None.

(** *** The engine ([lib/ffmpeg.ts]) *)

Inductive EngineCall :=
| Load
| WriteFile (name : string)
| ExecCopy (input output : string) (ss t : float)
| ExecReencode (input output : string) (ss t : float)
| ReadFile (name : string)
| DeleteFile (name : string).

(** Module state of [lib/ffmpeg.ts] ([ffmpegInstance && isLoaded]) and the
    calls made on the engine so far. *)
Record Engine := MkEngine { isLoaded : bool; calls : list EngineCall }.

(** How the engine answers during one call of [trimVideo], in the order in
    which it is asked: every call resolves or rejects, and what would follow
    a rejection is never asked. A message [None] is a thrown value that is
    no [Error]. *)
Inductive ReadRun :=
| ReadThrows (message : option string)       (* [readFile] rejects *)
| ReadGives (data : list Byte.byte) (delete_input_ok : bool).
    (* [readFile] resolves with [data]; [delete_input_ok]: does
       [deleteFile(input)] resolve in the cleanup that follows a blob *)

Inductive ExecRun :=
| CopyDone (r : ReadRun)                     (* the stream copy resolves *)
| ReencodeDone (r : ReadRun)                 (* the copy rejects, the re-encode resolves *)
| ExecThrows (message : option string).      (* both reject, the second with [message] *)

Inductive TrimRun :=
| FetchThrows (message : option string)      (* [fetchFile] rejects: nothing is written *)
| WriteThrows (message : option string)      (* [writeFile] rejects *)
| Written (x : ExecRun).

Record EngineEnv := MkEngineEnv {
  load_ok : bool;
  trim_run : TrimRun;
  timestamp : string }.

(** What a run says of the two [exec] calls and of the bytes read back. *)
Definition copy_ok (env : EngineEnv) : bool :=
  match trim_run env with
  | Written (CopyDone _) => true
  | _ => false
  end.
Definition reencode_ok (env : EngineEnv) : bool :=
  match trim_run env with
  | Written (ReencodeDone _) => true
  | _ => false
  end.
Definition output (env : EngineEnv) : list Byte.byte :=
  match trim_run env with
  | Written (CopyDone (ReadGives data _))
  | Written (ReencodeDone (ReadGives data _)) => data
  | _ => []
  end.

Definition call (c : EngineCall) (e : Engine) : Engine :=
  MkEngine (isLoaded e) (calls e ++ [c]).

(** [loadFFmpeg]: [inl] is the thrown message. *)
Definition loadFFmpeg (env : EngineEnv) (e : Engine) : Engine * (string + unit) :=
  if isLoaded e then (e, inr tt)
  else
    let e := call Load e in
    if load_ok env then (MkEngine true (calls e), inr tt)
    else (e, inl "Failed to initialize FFmpeg. Please refresh the page and try again.").

(** The outer [catch] of [trimVideo]: both deletions are requested, each
    with its own [.catch], and the error is thrown on with its message. *)
Definition trim_failure (input output : string) (msg : string) (e : Engine)
    : Engine * (string + Blob) :=
  let e := call (DeleteFile input) e in
  let e := call (DeleteFile output) e in
  (e, inl ("Failed to trim video: " +:+ msg +:+
           ". Please check the time values and try again.")).

(** [error instanceof Error ? error.message : 'Unknown error'] *)
Definition error_message (message : option string) : string :=
  default "Unknown error" message.

(** From [readFile] on. The cleanup after a blob is one [try] around both
    deletions: when the first rejects the second is not requested. *)
Definition read_back (input output : string) (r : ReadRun) (e : Engine)
    : Engine * (string + Blob) :=
  let e := call (ReadFile output) e in
  match r with
  | ReadThrows m => trim_failure input output (error_message m) e
  | ReadGives [] _ => trim_failure input output "Trimmed video is empty" e
  | ReadGives data delete_input_ok =>
    let e := call (DeleteFile input) e in
    let e := if delete_input_ok then call (DeleteFile output) e else e in
    (e, inr (MkBlob data "video/webm"))
  end.

Definition trimVideo (env : EngineEnv) (videoBlob : Blob) (startTime endTime : float)
    (e : Engine) : Engine * (string + Blob) :=
  match loadFFmpeg env e with
  | (e, inl msg) => (e, inl msg)
  | (e, inr _) =>
    let inputFileName := "input-" +:+ timestamp env +:+ ".webm" in
    let outputFileName := "output-" +:+ timestamp env +:+ ".webm" in
    match trim_run env with
    | FetchThrows m => trim_failure inputFileName outputFileName (error_message m) e
    | WriteThrows m =>
      let e := call (WriteFile inputFileName) e in
      trim_failure inputFileName outputFileName (error_message m) e
    | Written x =>
      let e := call (WriteFile inputFileName) e in
      let duration := PrimFloat.sub endTime startTime in
      let e := call (ExecCopy inputFileName outputFileName startTime duration) e in
      match x with
      | CopyDone r => read_back inputFileName outputFileName r e
      | ReencodeDone r =>
        let e := call (ExecReencode inputFileName outputFileName startTime duration) e in
        read_back inputFileName outputFileName r e
      | ExecThrows m =>
        let e := call (ExecReencode inputFileName outputFileName startTime duration) e in
        trim_failure inputFileName outputFileName (error_message m) e
      end
    end
  end.

(** *** The trimmer component *)

Record Trimmer := MkTrimmer {
  videoBlob : option Blob;
  duration : float;
  isTrimming : bool;
  isLoadingFFmpeg : bool;
  error : option ErrorMessage;
  trimmedVideoUrl : option Blob;
  onTrimmed : list Blob;          (* blobs handed to the parent, oldest first *)
  ffmpegLoadedRef : bool;
  engine : Engine }.

Definition setError (v : option ErrorMessage) (c : Trimmer) : Trimmer :=
  MkTrimmer (videoBlob c) (duration c) (isTrimming c) (isLoadingFFmpeg c) v
    (trimmedVideoUrl c) (onTrimmed c) (ffmpegLoadedRef c) (engine c).
Definition setIsTrimming (v : bool) (c : Trimmer) : Trimmer :=
  MkTrimmer (videoBlob c) (duration c) v (isLoadingFFmpeg c) (error c)
    (trimmedVideoUrl c) (onTrimmed c) (ffmpegLoadedRef c) (engine c).
Definition setIsLoadingFFmpeg (v : bool) (c : Trimmer) : Trimmer :=
  MkTrimmer (videoBlob c) (duration c) (isTrimming c) v (error c)
    (trimmedVideoUrl c) (onTrimmed c) (ffmpegLoadedRef c) (engine c).
Definition set_trimmed (b : Blob) (c : Trimmer) : Trimmer :=
  MkTrimmer (videoBlob c) (duration c) (isTrimming c) (isLoadingFFmpeg c) (error c)
    (Some b) (onTrimmed c ++ [b]) (ffmpegLoadedRef c) (engine c).
Definition set_ffmpegLoadedRef (v : bool) (c : Trimmer) : Trimmer :=
  MkTrimmer (videoBlob c) (duration c) (isTrimming c) (isLoadingFFmpeg c) (error c)
    (trimmedVideoUrl c) (onTrimmed c) v (engine c).
Definition set_engine (e : Engine) (c : Trimmer) : Trimmer :=
  MkTrimmer (videoBlob c) (duration c) (isTrimming c) (isLoadingFFmpeg c) (error c)
    (trimmedVideoUrl c) (onTrimmed c) (ffmpegLoadedRef c) e.

(** The part of [handleTrim] after the engine is known to be loaded. *)
Definition validate_and_trim (env : EngineEnv) (blob : Blob) (start end_ : float)
    (c : Trimmer) : Trimmer :=
  match validate start end_ (duration c) with
  | Some e => setError (Some e) c
  | None =>
    let c := setIsTrimming true c in
    let c := setError None c in
    let '(e, r) := trimVideo env blob start end_ (engine c) in
    let c := set_engine e c in
    let c := match r with
             | inr trimmedBlob => set_trimmed trimmedBlob c
             | inl msg => setError (Some (TrimFailed msg)) c
             end in
    setIsTrimming false c
  end.

Definition handleTrim (env : EngineEnv) (start end_ : float) (c : Trimmer) : Trimmer :=
  match videoBlob c with
  | None => c
  | Some blob =>
    if ffmpegLoadedRef c then validate_and_trim env blob start end_ c
    else
      let c := setIsLoadingFFmpeg true c in
      match loadFFmpeg env (engine c) with
      | (e, inr _) =>
        let c := set_engine e c in
        let c := set_ffmpegLoadedRef true c in
        let c := setIsLoadingFFmpeg false c in
        validate_and_trim env blob start end_ c
      | (e, inl _) =>
        let c := set_engine e c in
        let c := setError (Some InitFailed) c in
        setIsLoadingFFmpeg false c
      end
  end.

(** Engine calls other than [Load]: those that touch files of the engine. *)
Definition touches_files (c : EngineCall) : bool :=
  match c with
  | Load => false
  | _ => true
  end.

(** The five checks of [validate] in source order, each with the error it
    reports, and the error of the first check that fires. *)
Definition checks (start end_ duration : float) : list (bool * ErrorMessage) :=
  [ (isNaN start || isNaN end_, InvalidNumbers);
    (PrimFloat.ltb start 0, NegativeStart);
    (PrimFloat.ltb duration end_, EndAfterDuration duration);
    (PrimFloat.leb end_ start, StartNotBeforeEnd);
    (PrimFloat.ltb (PrimFloat.sub end_ start) min_length, TooShort) ].

Fixpoint first_failure (cs : list (bool * ErrorMessage)) : option ErrorMessage :=
  match cs with
  | [] => None
  | (fails, e) :: cs => if fails then Some e else first_failure cs
  end.

(** The names of the two engine files of one [trimVideo] call, and the
    number of times the engine was loaded. *)
Definition input_name (env : EngineEnv) : string :=
  "input-" +:+ timestamp env +:+ ".webm".
Definition output_name (env : EngineEnv) : string :=
  "output-" +:+ timestamp env +:+ ".webm".
Definition loads (e : Engine) : nat :=
  length (filter (fun x => touches_files x = false) (calls e)).

(** A trimmer showing a recorded blob of ten seconds. *)
Definition ten_seconds (loaded : bool) : Trimmer :=
  MkTrimmer (Some (MkBlob [Byte.x1a; Byte.x45] "video/webm")) 10%float false false
    None None [] loaded (MkEngine loaded []).

Definition quiet_engine : EngineEnv :=
  MkEngineEnv true (Written (CopyDone (ReadGives [Byte.x1a] true))) "1700000000000".

End Trimmer.

(* ===================================================================== *)
(** ** Watch analytics store                                               *)
(* ===================================================================== *)

Module Db.

(** Values found in a record's [watchProgress] object once it has been
    through the store: progress numbers, the [true] stored under
    [<sessionId>_completed], and the [null] that JSON makes of a number that
    is not finite. *)
Inductive JsValue := JsNumber (x : float) | JsBoolean (b : bool) | JsNull.

(** JavaScript truthiness: [0], [-0], [NaN] and [null] are falsy. *)
Definition truthy (v : JsValue) : bool :=
  match v with
  | JsNumber x => negb (PrimFloat.eqb x 0) && negb (PrimFloat.is_nan x)
  | JsBoolean b => b
  | JsNull => false
  end.

(** What [writeDB] ([JSON.stringify]) followed by [readDB] ([JSON.parse])
    makes of a value: [NaN] and the infinities come back as [null], [-0] as
    [0]. The store holds values that have been through it. *)
Definition through_json (v : JsValue) : JsValue :=
  match v with
  | JsNumber x =>
    if PrimFloat.is_nan x || PrimFloat.is_infinity x then JsNull
    else if PrimFloat.eqb x 0 then JsNumber 0
    else v
  | _ => v
  end.

(** The store and every [watchProgress] are objects made by [JSON.parse]:
    besides their own properties they have the members of
    [Object.prototype], all of them truthy (functions, and the prototype
    itself under [__proto__]). A [gmap] holds the own properties. *)
Definition object_prototype : list string :=
  [ "constructor"; "__defineGetter__"; "__defineSetter__"; "hasOwnProperty";
    "__lookupGetter__"; "__lookupSetter__"; "isPrototypeOf";
    "propertyIsEnumerable"; "toString"; "valueOf"; "__proto__";
    "toLocaleString" ].

Definition inherited (key : string) : bool := bool_decide (key ∈ object_prototype).

(** [!obj[key]] *)
Definition falsy_at (obj : gmap string JsValue) (key : string) : bool :=
  match obj !! key with
  | Some v => negb (truthy v)
  | None => negb (inherited key)
  end.

(** [obj[key] = v]: an own property is written or created, except under
    [__proto__] when the object has no own property of that name: the
    inherited setter takes the assignment and no property is made (a number
    is ignored; an object becomes the prototype of [obj], which does not
    show in what [JSON.stringify] writes). *)
Definition js_set {A} (key : string) (v : A) (obj : gmap string A) : gmap string A :=
  match obj !! key with
  | Some _ => <[key := v]> obj
  | None => if String.eqb key "__proto__" then obj else <[key := v]> obj
  end.

(** [viewCount] and [watchCompletions] are whole numbers held in doubles:
    they start at 0 and [+= 1] is their only update, which is exact below
    2^53 and leaves 2^53 as it is. *)
Record VideoRecord := MkVideoRecord {
  id : string;
  createdAt : string;
  viewCount : Z;
  watchCompletions : Z;
  watchProgress : gmap string JsValue }.

Definition add_one (n : Z) : Z := if bool_decide (n < 2 ^ 53)%Z then (n + 1)%Z else n.

(** The double written [0.95] in the source. *)
Definition completion_threshold : float := 0x1.e666666666666p-1%float.

(** The content of [data/videos.json], a JSON object, is the state;
    [readDB] and [writeDB] read and replace it whole. [now] is
    [new Date().toISOString()]. *)
Definition createVideoRecord (now : string) (videoId : string)
    (db : gmap string VideoRecord) : gmap string VideoRecord * VideoRecord :=
  let record := MkVideoRecord videoId now 0 0 ∅ in
  (js_set videoId record db, record).

(** [getVideoRecord]: the record stored under [videoId]. (Under the name of
    an inherited member that has no record, [db[videoId]] is that member,
    which is no [VideoRecord].) *)
Definition getVideoRecord (videoId : string) (db : gmap string VideoRecord)
    : option VideoRecord :=
  db !! videoId.

(** What [db[videoId]] is. *)
Inductive Member := Own (r : VideoRecord) | Inherited | Missing.

Definition member (db : gmap string VideoRecord) (videoId : string) : Member :=
  match db !! videoId with
  | Some r => Own r
  | None => if inherited videoId then Inherited else Missing
  end.

(** [incrementViewCount]; the recursive call after creating a missing record
    is bounded by [fuel]. Under the name of an inherited member,
    [!db[videoId]] is false and [viewCount += 1] lands on that member, not
    in the store, which is written back as it was read. *)
Fixpoint incrementViewCount (fuel : nat) (now : string) (videoId : string)
    (db : gmap string VideoRecord) : option (gmap string VideoRecord) :=
  match member db videoId with
  | Missing =>
    match fuel with
    | O => None
    | S fuel => incrementViewCount fuel now videoId (createVideoRecord now videoId db).1
    end
  | Inherited => Some db
  | Own r =>
    Some (<[videoId := MkVideoRecord (id r) (createdAt r) (add_one (viewCount r))
                         (watchCompletions r) (watchProgress r)]> db)
  end.

Definition completed_key (sessionId : string) : string := sessionId +:+ "_completed".

(** The body of [updateWatchProgress] on an existing record; the progress
    is stored as it comes back from the store. *)
Definition record_progress (sessionId : string) (progress : float) (r : VideoRecord)
    : VideoRecord :=
  let wp := js_set sessionId (through_json (JsNumber progress)) (watchProgress r) in
  if PrimFloat.leb completion_threshold progress && falsy_at wp (completed_key sessionId)
  then MkVideoRecord (id r) (createdAt r) (viewCount r) (add_one (watchCompletions r))
         (js_set (completed_key sessionId) (JsBoolean true) wp)
  else MkVideoRecord (id r) (createdAt r) (viewCount r) (watchCompletions r) wp.

(** How a call ends: it returns, with the store as written, or it throws
    before writing. *)
Inductive Outcome := Returned (db : gmap string VideoRecord) | Thrown.

(** [updateWatchProgress]; [None] is the fuel running out. Under the name of
    an inherited member [db[videoId].watchProgress] is [undefined], and the
    assignment into it throws a TypeError. *)
Fixpoint updateWatchProgress (fuel : nat) (now : string)
    (videoId sessionId : string) (progress : float)
    (db : gmap string VideoRecord) : option Outcome :=
  match member db videoId with
  | Missing =>
    match fuel with
    | O => None
    | S fuel =>
      updateWatchProgress fuel now videoId sessionId progress
        (createVideoRecord now videoId db).1
    end
  | Inherited => Some Thrown
  | Own r => Some (Returned (<[videoId := record_progress sessionId progress r]> db))
  end.

(** A sequence of progress reports [(sessionId, progress)] for one video,
    each with fuel for the one recursive call; a report that throws leaves
    the store as it was. *)
Fixpoint report_all (now videoId : string) (reports : list (string * float))
    (db : gmap string VideoRecord) : gmap string VideoRecord :=
  match reports with
  | [] => db
  | (sessionId, progress) :: reports =>
    match updateWatchProgress 1 now videoId sessionId progress db with
    | Some (Returned db') => report_all now videoId reports db'
    | _ => report_all now videoId reports db
    end
  end.

(** Observations. *)
Definition completions (videoId : string) (db : gmap string VideoRecord) : Z :=
  match db !! videoId with
  | Some r => watchCompletions r
  | None => 0
  end.

(** The session is not yet flagged as completed for this video. *)
Definition not_completed (videoId sessionId : string) (db : gmap string VideoRecord)
    : bool :=
  match db !! videoId with
  | Some r => falsy_at (watchProgress r) (completed_key sessionId)
  | None => true
  end.

(** The view count of a video, 0 when it has no record. *)
Definition views (videoId : string) (db : gmap string VideoRecord) : Z :=
  match db !! videoId with
  | Some r => viewCount r
  | None => 0
  end.

(** [k] view requests for one video, one after the other. *)
Fixpoint view_times (k : nat) (now : string) (videoId : string)
    (db : gmap string VideoRecord) : option (gmap string VideoRecord) :=
  match k with
  | O => Some db
  | S k => incrementViewCount 1 now videoId db ≫= view_times k now videoId
  end.

(** The record an update works on: the stored one, or the one just created. *)
Definition record_or_new (now : string) (videoId : string)
    (db : gmap string VideoRecord) : VideoRecord :=
  default (MkVideoRecord videoId now 0 0 ∅) (db !! videoId).

(** An id the store can hold a record for: it has one, or it is not the
    name of an inherited member. *)
Definition storable (videoId : string) (db : gmap string VideoRecord) : Prop :=
  db !! videoId <> None \/ inherited videoId = false.

End Db.

(* ===================================================================== *)
(** ** Video storage and the video route                                   *)
(* ===================================================================== *)

Module Storage.

(** *** Node's POSIX [path.normalize] and [path.join] *)

Definition slash : ascii := "/"%char.

(** [s.split('/')] *)
Fixpoint split_slash (s : string) : list string :=
  match s with
  | EmptyString => [EmptyString]
  | String c s' =>
    if Ascii.eqb c slash then EmptyString :: split_slash s'
    else match split_slash s' with
         | x :: xs => String c x :: xs
         | [] => [String c EmptyString]
         end
  end.

(** [normalizeString]: [stack] holds the kept segments, last one first.
    Empty segments and [.] are skipped; [..] removes the last kept segment
    unless there is none or it is itself [..], in which case it is kept only
    when the path is relative ([allowAboveRoot]). *)
Fixpoint normalize_segments (allowAboveRoot : bool) (stack segs : list string)
    : list string :=
  match segs with
  | [] => rev stack
  | seg :: segs =>
    if String.eqb seg "" || String.eqb seg "." then
      normalize_segments allowAboveRoot stack segs
    else if String.eqb seg ".." then
      match stack with
      | top :: below =>
        if String.eqb top ".."
        then normalize_segments allowAboveRoot
               (if allowAboveRoot then ".." :: stack else stack) segs
        else normalize_segments allowAboveRoot below segs
      | [] =>
        normalize_segments allowAboveRoot
          (if allowAboveRoot then [".."] else []) segs
      end
    else normalize_segments allowAboveRoot (seg :: stack) segs
  end.

Definition join_slash (segs : list string) : string :=
  match segs with
  | [] => ""
  | x :: xs => foldl (fun acc y => acc +:+ "/" +:+ y) x xs
  end.

Definition starts_with_slash (p : string) : bool :=
  match p with
  | String c _ => Ascii.eqb c slash
  | EmptyString => false
  end.

Fixpoint ends_with_slash (p : string) : bool :=
  match p with
  | EmptyString => false
  | String c EmptyString => Ascii.eqb c slash
  | String _ p' => ends_with_slash p'
  end.

Definition normalize (p : string) : string :=
  if String.eqb p "" then "."
  else
    let isAbsolute := starts_with_slash p in
    let trailingSeparator := ends_with_slash p in
    let body := join_slash (normalize_segments (negb isAbsolute) [] (split_slash p)) in
    if String.eqb body "" then
      if isAbsolute then "/" else if trailingSeparator then "./" else "."
    else
      let body := if trailingSeparator then body +:+ "/" else body in
      if isAbsolute then "/" +:+ body else body.

Definition path_join (a b : string) : string :=
  if String.eqb a "" then (if String.eqb b "" then "." else normalize b)
  else if String.eqb b "" then normalize a
  else normalize (a +:+ "/" +:+ b).

(** *** [lib/storage.ts]; [cwd] is [process.cwd()] *)

Section WithCwd.
Variable cwd : string.

Definition UPLOADS_DIR : string := path_join cwd "uploads".
Definition DATA_DIR : string := path_join cwd "data".

Definition getVideoPath (videoId : string) : string :=
  path_join UPLOADS_DIR (videoId +:+ ".webm").

(** The file system as the route sees it: the files that can be read. *)
Variable fs : string -> option (list Byte.byte).

Definition videoExists (videoId : string) : bool :=
  bool_decide (is_Some (fs (getVideoPath videoId))).

(** *** [GET /api/video/[id]] *)
Inductive Response :=
| JsonError (status : nat) (error : string)
| VideoFile (body : list Byte.byte) (contentType : string)
            (contentLength : nat) (cacheControl : string).

Definition GET (videoId : string) : Response :=
  if String.eqb videoId "" then JsonError 400 "Video ID required"
  else if negb (videoExists videoId) then JsonError 404 "Video not found"
  else match fs (getVideoPath videoId) with
       | Some videoBuffer =>
         VideoFile videoBuffer "video/webm" (length videoBuffer)
           "public, max-age=31536000, immutable"
       | None => JsonError 500 "Failed to serve video"
       end.
End WithCwd.

(** A file of the uploads directory has a path that extends [UPLOADS_DIR/]. *)
Definition inside_uploads (cwd : string) (p : string) : bool :=
  String.prefix (UPLOADS_DIR cwd +:+ "/") p.

(** A plain directory name: not empty, not [.] or [..], no separator. *)
Definition plain_name (d : string) : Prop :=
  d ≠ "" ∧ d ≠ "." ∧ d ≠ ".." ∧ split_slash d = [d].

(** An absolute, normalised working directory given by its directory names. *)
Definition absolute_dir (dirs : list string) : string := "/" +:+ join_slash dirs.

(** What precedes the last name in [join_slash]. *)
Definition dir_prefix (dirs : list string) : string :=
  match dirs with
  | [] => ""
  | _ => join_slash dirs +:+ "/"
  end.

End Storage.

(* ===================================================================== *)
(** ** The recorder controls                                               *)
(* ===================================================================== *)

Module RecorderControls.

Import Recorder.

(** *** Handing the finished recording to the parent

    The effect of [components/RecorderControls.tsx] that calls
    [onRecordingComplete]: [notifiedRef] and the blobs passed to the parent so
    far, oldest first. *)
Record Notifier := MkNotifier { notifiedRef : bool; handed_over : list Blob }.

(** One run of the effect, for the [videoBlob] of the render it follows;
    [hasCallback] tells whether the parent passed [onRecordingComplete]. *)
Definition notify_effect (hasCallback : bool) (videoBlob : option Blob)
    (n : Notifier) : Notifier :=
  let n := match videoBlob with
           | Some b =>
             if hasCallback && negb (notifiedRef n)
             then MkNotifier true (handed_over n ++ [b])
             else n
           | None => n
           end in
  match videoBlob with
  | None => MkNotifier false (handed_over n)
  | Some _ => n
  end.

(** The hook and the effect together: each event is handled by the hook, the
    component renders, and the effect sees the new [videoBlob]. *)
Definition step (hasCallback : bool) (e : Event) (c : Hook * Notifier)
    : Hook * Notifier :=
  let s := handle e c.1 in
  (s, notify_effect hasCallback (videoBlob s) c.2).

Definition observe (hasCallback : bool) (evs : list Event) (c : Hook * Notifier)
    : Hook * Notifier :=
  foldl (fun acc e => step hasCallback e acc) c evs.

Definition not_reset (e : Event) : Prop :=
  match e with
  | Reset => False
  | _ => True
  end.

(** *** The elapsed-time display *)

(** [n.toString()] of an integer. *)
Definition toString (n : Z) : string :=
  DecimalString.NilZero.string_of_int (Z.to_int n).

(** [s.padStart(2, '0')] *)
Definition padStart2 (s : string) : string :=
  match String.length s with
  | 0 => "00"
  | 1 => "0" +:+ s
  | _ => s
  end.

(** [Math.floor(seconds / 60)] and the remainder [seconds % 60], which has
    the sign of [seconds]. *)
Definition formatTime (seconds : Z) : string :=
  let mins := (seconds / 60)%Z in
  let secs := Z.rem seconds 60 in
  padStart2 (toString mins) +:+ ":" +:+ padStart2 (toString secs).

(** The character of a decimal digit. *)
Definition digit_char (d : Z) : ascii := ascii_of_N (48 + Z.to_N d).

Definition two_digits (r : Z) : string :=
  String (digit_char (r / 10)) (String (digit_char (r mod 10)) EmptyString).

(** [MM:SS] written digit by digit. *)
Definition clock_face (m1 m0 s1 s0 : Z) : string :=
  String (digit_char m1) (String (digit_char m0) (String ":"%char
    (String (digit_char s1) (String (digit_char s0) EmptyString)))).

End RecorderControls.

(* ===================================================================== *)
(** ** Uploading and storing videos                                        *)
(* ===================================================================== *)

Module Upload.

Import Storage.

(** *** [lib/storage.ts]: ids and files *)

Definition hex_digit (n : N) : ascii :=
  match n with
  | 0 => "0" | 1 => "1" | 2 => "2" | 3 => "3" | 4 => "4" | 5 => "5" | 6 => "6"
  | 7 => "7" | 8 => "8" | 9 => "9" | 10 => "a" | 11 => "b" | 12 => "c"
  | 13 => "d" | 14 => "e" | _ => "f"
  end%N%char.

(** [buffer.toString('hex')]: two lower-case digits per byte. *)
Fixpoint hex (bytes : list Byte.byte) : string :=
  match bytes with
  | [] => EmptyString
  | b :: bytes =>
    String (hex_digit (Byte.to_N b / 16)) (String (hex_digit (Byte.to_N b mod 16))
      (hex bytes))
  end.

(** [generateVideoId]; [random] is what [randomBytes(16)] returned. *)
Definition generateVideoId (random : list Byte.byte) : string := hex random.

(** The value of a hexadecimal digit, and the bytes a hexadecimal string
    stands for ([Buffer.from(s, 'hex')] on well-formed input). *)
Definition hex_value (c : ascii) : option N :=
  let code := N_of_ascii c in
  if (48 <=? code)%N && (code <=? 57)%N then Some (code - 48)%N        (* 0-9 *)
  else if (97 <=? code)%N && (code <=? 102)%N then Some (code - 87)%N  (* a-f *)
  else None.

Fixpoint unhex (s : string) : option (list Byte.byte) :=
  match s with
  | EmptyString => Some []
  | String c1 (String c0 s) =>
    match hex_value c1, hex_value c0, unhex s with
    | Some h, Some l, Some bytes =>
      match Byte.of_N (16 * h + l) with
      | Some b => Some (b :: bytes)
      | None => None
      end
    | _, _, _ => None
    end
  | String _ EmptyString => None
  end.

(** The files of the disk, by path. Directories are not files. *)
Definition Files := gmap string (list Byte.byte).

Definition read (files : Files) (p : string) : option (list Byte.byte) := files !! p.

(** [saveVideo]: [fs.writeFileSync] either writes the whole buffer or throws
    ([None]); [write_ok] is the answer of the operating system. *)
Definition saveVideo (cwd : string) (write_ok : bool) (videoBuffer : list Byte.byte)
    (videoId : string) (files : Files) : option (Files * string) :=
  let filePath := path_join (UPLOADS_DIR cwd) (videoId +:+ ".webm") in
  if write_ok then Some (<[filePath := videoBuffer]> files, filePath) else None.

(** [deleteVideo] *)
Definition deleteVideo (cwd : string) (videoId : string) (files : Files) : Files :=
  let filePath := getVideoPath cwd videoId in
  if bool_decide (is_Some (files !! filePath)) then delete filePath files else files.

(** *** [POST /api/upload] *)

(** [haystack.includes(needle)] *)
Fixpoint includes (needle haystack : string) : bool :=
  String.prefix needle haystack ||
  match haystack with
  | EmptyString => false
  | String _ rest => includes needle rest
  end.

(** What [formData.get('video')] returns. *)
Inductive FormEntry :=
| NoEntry
| TextEntry (value : string)
| FileEntry (type : string) (content : list Byte.byte).

Inductive UploadResponse :=
| UploadError (status : nat) (error : string)
| Uploaded (videoId shareUrl message : string).

(** What the environment contributes to one request. *)
Record UploadEnv := MkUploadEnv {
  random : list Byte.byte;        (* randomBytes(16) *)
  now : string;                   (* new Date().toISOString() *)
  write_ok : bool;                (* does writeFileSync succeed *)
  origin : string }.              (* request.nextUrl.origin *)

Definition POST (cwd : string) (env : UploadEnv) (video : FormEntry)
    (files : Files) (db : gmap string Db.VideoRecord)
    : UploadResponse * Files * gmap string Db.VideoRecord :=
  match video with
  | NoEntry | TextEntry EmptyString =>
    (UploadError 400 "No video file provided", files, db)
  | TextEntry _ =>
    (* [videoFile.type] is undefined: [includes] throws, the catch answers *)
    (UploadError 500 "Failed to upload video", files, db)
  | FileEntry type content =>
    if negb (includes "webm" type) && negb (includes "video" type) then
      (UploadError 400 "Invalid file type. Please upload a video file.", files, db)
    else
      let videoId := generateVideoId (random env) in
      match saveVideo cwd (write_ok env) content videoId files with
      | None => (UploadError 500 "Failed to upload video", files, db)
      | Some (files, _) =>
        let db := (Db.createVideoRecord (now env) videoId db).1 in
        (Uploaded videoId (origin env +:+ "/video/" +:+ videoId)
           "Video uploaded successfully", files, db)
      end
  end.

(** Characters of [0-9a-f]. *)
Definition is_hex (c : ascii) : bool := bool_decide (is_Some (hex_value c)).

Fixpoint all_chars (P : ascii -> bool) (s : string) : bool :=
  match s with
  | EmptyString => true
  | String c s => P c && all_chars P s
  end.

End Upload.

(* ===================================================================== *)
(** ** Properties of the recording hook                                    *)
(* ===================================================================== *)

Section RecorderFacts.
Import Recorder.
Local Open Scope Z_scope.

(** *** Segment accumulation *)

(** Case analysis on every [match] the goal is stuck on. *)
Ltac break_matches :=
  repeat match goal with
         | |- context [match ?x with _ => _ end] => destruct x eqn:?; simpl in *
         end.

Lemma appended_data (d : option Blob) :
  appended [DataAvailable d] =
  match d with
  | Some b => if bool_decide (0 < blob_size b)%nat then [b] else []
  | None => []
  end.
Proof.
  unfold appended. destruct d as [b|]; simpl; [|done].
  rewrite filter_cons, filter_nil.
  destruct (bool_decide_reflect (0 < blob_size b)%nat);
    destruct (decide (0 < blob_size b)%nat); done.
Qed.

Lemma chunksRef_handle (e : Event) (s : Hook) :
  keeps_buffer e -> chunksRef (handle e s) = chunksRef s ++ appended [e].
Proof.
  destruct e as [mic now env| |now|now| | |d| | |i now|t]; simpl; try tauto; intros _;
    try rewrite appended_data;
    unfold stopRecording, stopRecording_in, clear_timer, pauseRecording,
      resumeRecording, toggleMicrophone, ondataavailable, onerror, tick,
      track_ended, stopRecording_in, clear_timer;
    simpl; break_matches; by rewrite ?app_nil_r.
Qed.

Lemma appended_app (evs1 evs2 : list Event) :
  appended (evs1 ++ evs2) = appended evs1 ++ appended evs2.
Proof.
  unfold appended, delivered. by rewrite bind_app, filter_app.
Qed.

Lemma chunksRef_run (evs : list Event) (s : Hook) :
  Forall keeps_buffer evs -> chunksRef (run evs s) = chunksRef s ++ appended evs.
Proof.
  revert s. induction evs as [|e evs IH]; intros s Hk.
  - simpl. by rewrite app_nil_r.
  - inversion Hk as [|? ? He Hevs]; subst. unfold run in *; simpl.
    rewrite IH by done. rewrite chunksRef_handle by done.
    change (e :: evs) with ([e] ++ evs). by rewrite appended_app, app_assoc.
Qed.

Lemma chunksRef_onstop (s : Hook) : chunksRef (onstop s) = [].
Proof. unfold onstop, release_stream. simpl. by destruct (streamRef s). Qed.

Lemma videoBlob_onstop (s : Hook) :
  videoBlob (onstop s) = Some (new_Blob (chunksRef s) "video/webm").
Proof. unfold onstop, release_stream. simpl. by destruct (streamRef s). Qed.

Lemma chunksRef_startRecording mic now env (s : Hook) (nv : nat) :
  getDisplayMedia env = DisplayGranted (S nv) ->
  chunksRef (startRecording mic now env s) = [].
Proof.
  intros Hd. unfold startRecording. rewrite Hd. simpl.
  destruct mic; [destruct (getUserMedia env) as [[|na]|]|];
    by destruct (encoder_available env).
Qed.

(** Empty segments carry no bytes: dropping them loses nothing. *)
Lemma bytes_of_nonempty (ds : list Blob) :
  concat (blob_bytes <$> filter (fun d => 0 < blob_size d)%nat ds) =
  concat (blob_bytes <$> ds).
Proof.
  induction ds as [|d ds IH]; [done|].
  rewrite filter_cons. destruct (decide (0 < blob_size d)%nat) as [H|H].
  - rewrite !fmap_cons. cbn [concat]. by rewrite IH.
  - rewrite fmap_cons. cbn [concat]. rewrite IH. unfold blob_size in H.
    destruct (blob_bytes d) as [|b bs]; [done | simpl in H; lia].
Qed.

Lemma bytes_of_appended (evs : list Event) :
  concat (blob_bytes <$> appended evs) = concat (blob_bytes <$> delivered evs).
Proof. apply bytes_of_nonempty. Qed.

(** C4. Whatever is delivered between two finalizations ends up in the
    artifact: starting from an empty segment buffer, after any trace of
    events that neither finalizes nor restarts the buffer (data arriving
    while recording, while paused, and after [stopRecording] was requested
    alike), [onstop] produces the [video/webm] blob made of the non-empty
    delivered segments in delivery order, whose bytes are those of all the
    delivered segments, and leaves the buffer empty. *)
Theorem finalized_artifact_is_ordered_concatenation (s : Hook) (evs : list Event) :
  chunksRef s = [] ->
  Forall keeps_buffer evs ->
  let s' := onstop (run evs s) in
  videoBlob s' = Some (new_Blob (appended evs) "video/webm") /\
  videoBlob s' = Some (MkBlob (concat (blob_bytes <$> delivered evs)) "video/webm") /\
  chunksRef s' = [].
Proof.
  intros Hs Hk s'. subst s'.
  rewrite videoBlob_onstop, chunksRef_onstop, chunksRef_run, Hs by done. simpl.
  split; [done|]. split; [|done].
  unfold new_Blob. by rewrite bytes_of_appended.
Qed.

Lemma finalized_artifact_is_ordered_concatenation_witness :
  let a := MkBlob [Byte.x01; Byte.x02] "video/webm" in
  let b := MkBlob [] "video/webm" in
  let c := MkBlob [Byte.x03] "video/webm" in
  let evs := [DataAvailable (Some a); Pause 1500; DataAvailable (Some b);
              Resume 2500; DataAvailable None; Stop; DataAvailable (Some c)] in
  videoBlob (onstop (run evs (startRecording true 0 granting initial))) =
    Some (MkBlob [Byte.x01; Byte.x02; Byte.x03] "video/webm") /\
  chunksRef (onstop (run evs (startRecording true 0 granting initial))) = [].
Proof.
  intros a b c evs.
  destruct (finalized_artifact_is_ordered_concatenation
              (startRecording true 0 granting initial) evs) as (_ & H2 & H3).
  - reflexivity.
  - repeat constructor.
  - split; [exact H2 | exact H3].
Defined.

(** *** Stopping *)

(** C9. [stopRecording] with no recorder, or while not recording, changes
    nothing at all: the hook state after the call is the state before it,
    so the recording and paused flags, the reported time, the artifact and
    the error are the same. *)
Theorem stop_without_active_recording_is_noop (s : Hook) :
  mediaRecorderRef s = None \/ isRecording s = false ->
  stopRecording s = s.
Proof.
  unfold stopRecording, stopRecording_in. intros [H|H]; rewrite H; [done|].
  by destruct (mediaRecorderRef s).
Qed.

Lemma stop_without_active_recording_is_noop_witness :
  (mediaRecorderRef initial = None \/ isRecording initial = false) /\
  stopRecording initial = initial.
Proof.
  split; [by left|].
  apply (stop_without_active_recording_is_noop initial). by left.
Defined.

(** A [stopRecording] created while [isRecording] was false does nothing,
    whatever the state it is called in: such is the one inside [onended] for
    a recording started with a [startRecording] that was last re-created
    while nothing was being recorded. *)
Lemma stale_stop_is_noop (s : Hook) : stopRecording_in false s = s.
Proof. unfold stopRecording_in. by destruct (mediaRecorderRef s). Qed.

(** *** Microphone *)

Lemma lockstep_frame (s s' : Hook) :
  audioTrackRef s' = audioTrackRef s ->
  isMicrophoneEnabled s' = isMicrophoneEnabled s ->
  (forall a t, tracks s !! a = Some t ->
     exists t', tracks s' !! a = Some t' /\ enabled t' = enabled t) ->
  lockstep s -> lockstep s'.
Proof.
  unfold lockstep. intros -> -> Ht. destruct (audioTrackRef s) as [a|]; [|done].
  intros (t & Hl & He). destruct (Ht a t Hl) as (t' & Hl' & He').
  exists t'. split; [done | congruence].
Qed.

Lemma lockstep_no_audio (s : Hook) : audioTrackRef s = None -> lockstep s.
Proof. unfold lockstep. by intros ->. Qed.

Lemma lockstep_stopRecording_in b (s : Hook) :
  lockstep s -> lockstep (stopRecording_in b s).
Proof.
  apply lockstep_frame;
    unfold stopRecording_in, clear_timer; break_matches; eauto.
Qed.

Lemma lockstep_toggleMicrophone (s : Hook) :
  lockstep s -> lockstep (toggleMicrophone s).
Proof.
  unfold toggleMicrophone.
  destruct (isRecording s); simpl; [|done].
  destruct (audioTrackRef s) as [a|] eqn:Ha; [|done].
  destruct (tracks s !! a) as [t|] eqn:Ht; [|done].
  intros _. unfold lockstep. simpl. rewrite Ha.
  exists (track_set_enabled (negb (enabled t)) t). split; [|done].
  rewrite list_lookup_insert_eq; [done|]. by eapply lookup_lt_Some.
Qed.

Lemma lockstep_track_ended (t : nat) (s : Hook) :
  lockstep s -> lockstep (track_ended t s).
Proof.
  unfold track_ended. destruct (tracks s !! t) as [tr|] eqn:Ht; [|done].
  intros Hl.
  assert (lockstep (set_tracks (<[t := track_end tr]> (tracks s)) s)) as Hl'.
  { revert Hl. apply lockstep_frame; simpl; try done.
    intros a ta Ha. destruct (decide (t = a)) as [->|Hne].
    - exists (track_end tr). rewrite list_lookup_insert_eq by (by eapply lookup_lt_Some).
      split; [done|]. simpl. congruence.
    - exists ta. by rewrite list_lookup_insert_ne. }
  destruct (onended tr); [by apply lockstep_stopRecording_in | done].
Qed.

Lemma lockstep_handle (e : Event) (s : Hook) :
  in_session e -> lockstep s -> lockstep (handle e s).
Proof.
  destruct e as [mic now env| |now|now| | |d| | |i now|t]; simpl; intros Hin.
  - contradiction.
  - apply lockstep_stopRecording_in.
  - apply lockstep_frame; unfold pauseRecording; break_matches; eauto.
  - apply lockstep_frame; unfold resumeRecording; break_matches; eauto.
  - intros _. apply lockstep_no_audio.
    unfold resetRecording, clear_timer. simpl. by break_matches.
  - apply lockstep_toggleMicrophone.
  - apply lockstep_frame; unfold ondataavailable; break_matches; eauto.
  - intros _. apply lockstep_no_audio. unfold onstop. reflexivity.
  - apply lockstep_frame; unfold onerror; simpl; eauto.
  - apply lockstep_frame; unfold tick; break_matches; eauto.
  - apply lockstep_track_ended.
Qed.

Lemma lockstep_run (evs : list Event) (s : Hook) :
  Forall in_session evs -> lockstep s -> lockstep (run evs s).
Proof.
  revert s. induction evs as [|e evs IH]; intros s Hk Hl; [done|].
  inversion Hk; subst. unfold run in *; simpl.
  apply IH; [done|]. by apply lockstep_handle.
Qed.

(** Acquiring a microphone track puts the two flags in lockstep, from any
    state of the hook. *)
Lemma lockstep_startRecording now env (s : Hook) (nv na : nat) :
  getDisplayMedia env = DisplayGranted nv ->
  getUserMedia env = MicGranted (S na) ->
  lockstep (startRecording true now env s).
Proof.
  intros Hd Hm. unfold startRecording, lockstep. rewrite Hd, Hm. simpl.
  destruct (encoder_available env), nv as [|nv]; simpl;
    (exists (fresh_track AudioTrack); split; [|done]);
    rewrite ?app_nil_r;
    rewrite ?list_lookup_alter_ne by (rewrite length_app; simpl; lia);
    rewrite lookup_app_r by lia; by rewrite Nat.sub_diag.
Qed.

Lemma toggleMicrophone_twice (s : Hook) :
  lockstep s -> toggleMicrophone (toggleMicrophone s) = s.
Proof.
  unfold lockstep, toggleMicrophone.
  destruct (isRecording s) eqn:Hr; simpl; [|by rewrite Hr].
  destruct (audioTrackRef s) as [a|] eqn:Ha; [|by rewrite Hr, Ha].
  intros (t & Ht & He). rewrite Ht. simpl. rewrite Hr, Ha.
  rewrite list_lookup_insert_eq by (by eapply lookup_lt_Some). simpl.
  rewrite list_insert_insert_eq, negb_involutive.
  destruct s; unfold setIsMicrophoneEnabled, set_tracks; simpl in *.
  f_equal; try done.
  apply list_insert_id. rewrite Ht. by destruct t.
Qed.

(** C7. With no audio track [toggleMicrophone] returns the state it was
    given. In a session whose microphone was acquired, at any later point of
    the session, one toggle flips both the track's [enabled] flag and the
    observable microphone flag, and a second toggle brings the whole hook
    state, these two flags included, back to what it was. *)
Theorem toggleMicrophone_noop_or_involution
    (s0 : Hook) (now : Z) (env : Env) (nv na : nat) (evs : list Event) :
  getDisplayMedia env = DisplayGranted nv ->
  getUserMedia env = MicGranted (S na) ->
  Forall in_session evs ->
  let s := run evs (startRecording true now env s0) in
  (forall u : Hook, audioTrackRef u = None -> toggleMicrophone u = u) /\
  toggleMicrophone (toggleMicrophone s) = s /\
  (forall a t, isRecording s = true -> audioTrackRef s = Some a ->
     tracks s !! a = Some t ->
     enabled t = isMicrophoneEnabled s /\
     isMicrophoneEnabled (toggleMicrophone s) = negb (isMicrophoneEnabled s) /\
     enabled <$> tracks (toggleMicrophone s) !! a = Some (negb (enabled t))).
Proof.
  intros Hd Hm Hev s.
  assert (lockstep s) as Hl
    by (apply lockstep_run; [done | by eapply lockstep_startRecording]).
  split; [|split].
  - intros u Hu. unfold toggleMicrophone. rewrite Hu. by destruct (isRecording u).
  - by apply toggleMicrophone_twice.
  - intros a t Hr Ha Ht. unfold lockstep in Hl. rewrite Ha in Hl.
    destruct Hl as (t' & Ht' & He). assert (t' = t) as -> by congruence.
    split; [done|]. unfold toggleMicrophone. rewrite Hr, Ha, Ht. simpl.
    split; [by rewrite He|].
    rewrite list_lookup_insert_eq by (by eapply lookup_lt_Some). done.
Qed.

Lemma toggleMicrophone_noop_or_involution_witness :
  let s := run [Pause 1500; ToggleMicrophone; Resume 4000]
               (startRecording true 0 granting initial) in
  toggleMicrophone (toggleMicrophone s) = s /\
  isMicrophoneEnabled s = false /\
  isMicrophoneEnabled (toggleMicrophone s) = true.
Proof.
  pose proof (toggleMicrophone_noop_or_involution initial 0 granting 1 0
                [Pause 1500; ToggleMicrophone; Resume 4000]
                eq_refl eq_refl) as H.
  destruct H as (_ & H2 & _).
  - repeat constructor.
  - split; [exact H2 | split; reflexivity].
Defined.

(** *** Acquisition *)

Lemma alter_first_new {A} (f : A -> A) (l : list A) (x : A) (xs : list A) :
  alter f (length l) (l ++ x :: xs) = l ++ f x :: xs.
Proof.
  replace (length l) with (length l + 0)%nat by lia. by rewrite alter_app_r.
Qed.

(** No audio track is referenced before the first session, after a session
    was finalized, or after a reset. *)
Lemma no_audio_track_between_sessions (s : Hook) :
  audioTrackRef initial = None /\
  audioTrackRef (onstop s) = None /\
  audioTrackRef (resetRecording s) = None.
Proof.
  split; [done|]. split; [done|].
  unfold resetRecording, clear_timer. simpl. by break_matches.
Qed.

(** The video tracks that [startRecording] has just appended, whether or not
    the first of them already carries its [onended] handler. *)
Lemma new_video_tracks (ts : list Track) (nv i : nat) (h : option bool) :
  i ∈ seq (length ts) (S nv) ->
  (exists t, (ts ++ fresh_track VideoTrack :: replicate nv (fresh_track VideoTrack)) !! i
             = Some t /\ kind t = VideoTrack /\ readyState t = Live /\ enabled t = true) /\
  (exists t, (ts ++ track_set_onended h (fresh_track VideoTrack)
                 :: replicate nv (fresh_track VideoTrack)) !! i
             = Some t /\ kind t = VideoTrack /\ readyState t = Live /\ enabled t = true).
Proof.
  intros [Hge Hlt]%elem_of_seq.
  rewrite !lookup_app_r by lia.
  destruct (i - length ts)%nat as [|k] eqn:E; simpl.
  - split; eexists; (split; [reflexivity | done]).
  - assert (k < nv)%nat as Hk by lia.
    rewrite (lookup_replicate_2 _ _ _ Hk).
    split; eexists; (split; [reflexivity | done]).
Qed.

(** C6. The microphone is requested and refused while the screen is
    granted (with at least one video track, as a display capture has).
    The acquisition succeeds all the same: the hook holds a stream made of
    the new video tracks only, with no audio track; the caller's microphone
    preference is still set, and the observable microphone flag tells that
    the session has no microphone. In a browser that can record one of the
    three media types the recording then runs, without an error. With the
    screen granted the stream is acquired whatever the microphone answers,
    and whether the recording starts depends on the encoder alone, never on
    the microphone; refusing the screen is what fails the acquisition: then
    nothing is acquired and the error is reported. *)
Theorem microphone_denial_keeps_video_session
    (c : Controls) (now : Z) (supported : string -> bool) (nv : nat) :
  microphonePreference c = true ->
  audioTrackRef (hook c) = None ->
  let s := hook c in
  let c' := clickStart now (MkEnv (DisplayGranted (S nv)) MicRejected supported) c in
  let s' := hook c' in
  let stream := seq (length (tracks s)) (S nv) in
  (microphonePreference c' = true /\
   audioTrackRef s' = None /\ isMicrophoneEnabled s' = false /\
   streamRef s' = Some stream /\
   (forall i, i ∈ stream ->
      exists t, tracks s' !! i = Some t /\ kind t = VideoTrack /\
                readyState t = Live /\ enabled t = true) /\
   (supported (pick_mimeType supported) = true ->
    isRecording s' = true /\ isPaused s' = false /\ error s' = None /\
    tracks s' = tracks s ++
      track_set_onended (Some (memoIsRecording s)) (fresh_track VideoTrack)
        :: replicate nv (fresh_track VideoTrack) /\
    mediaRecorderRef s' = Some (length (recorders s)) /\
    recorders s' = recorders s ++
      [MkMediaRecorder stream (pick_mimeType supported) Recording])) /\
  (forall mic, let g := startRecording true now
                          (MkEnv (DisplayGranted (S nv)) mic supported) s in
     (exists audio, streamRef g = Some (stream ++ audio)) /\
     if supported (pick_mimeType supported)
     then isRecording g = true /\ error g = None
     else isRecording g = isRecording s /\ recorders g = recorders s /\
          error g = Some (not_supported_message (pick_mimeType supported))) /\
  (forall mic m, let f := startRecording true now
                            (MkEnv (DisplayRejected m) mic supported) s in
     error f = Some (default "Failed to start recording" m) /\
     isRecording f = isRecording s /\ tracks f = tracks s /\
     recorders f = recorders s /\ streamRef f = streamRef s /\
     mediaRecorderRef f = mediaRecorderRef s).
Proof.
  intros Hp Ha s c' s' stream. subst s' c' stream s. unfold clickStart. simpl.
  rewrite Hp. split; [|split].
  - unfold startRecording, encoder_available. simpl.
    destruct (supported (pick_mimeType supported)) eqn:Hs; simpl.
    + rewrite alter_first_new, alter_first_new, Ha, !app_nil_r.
      repeat split; try done.
      intros i Hi. by apply new_video_tracks.
    + rewrite Ha, !app_nil_r. repeat split; try done.
      intros i Hi. by apply new_video_tracks.
  - intros mic. unfold startRecording, encoder_available. simpl.
    destruct mic as [[|na]|], (supported (pick_mimeType supported)); simpl;
      (split; [eexists; reflexivity | done]).
  - intros mic m. unfold startRecording, start_failed. by simpl.
Qed.

Lemma microphone_denial_keeps_video_session_witness :
  let c := MkControls true initial in
  let s' := hook (clickStart 0 (MkEnv (DisplayGranted 1) MicRejected (fun _ => true)) c) in
  isRecording s' = true /\ error s' = None /\ audioTrackRef s' = None /\
  isMicrophoneEnabled s' = false /\ streamRef s' = Some [0%nat].
Proof.
  intros c s'.
  destruct (microphone_denial_keeps_video_session c 0 (fun _ => true) 0 eq_refl eq_refl)
    as ((_ & H3 & H4 & H5 & _ & H6) & _).
  destruct (H6 eq_refl) as (H1 & _ & H2 & _).
  by repeat split.
Defined.

Lemma fresh_tracks_lookup (ts : list Track) (k : TrackKind) (n i : nat) :
  (length ts <= i < length ts + n)%nat ->
  (ts ++ replicate n (fresh_track k)) !! i = Some (fresh_track k).
Proof.
  intros Hi. rewrite lookup_app_r by lia. apply lookup_replicate_2. lia.
Qed.

(** X2. Whatever state the hook is in, a granted screen ends none of the
    tracks that were live, and in a browser that can record one of the
    three media types it opens one more encoder: nothing in
    [startRecording] looks at [isRecording] or at the refs of a session in
    progress. In a browser that can record none of them no encoder is
    opened and no interval is created; the error is reported, the recording
    flag and the encoder ref are as before, and the tracks just acquired
    stay live, held by the stream ref. *)
Lemma startRecording_opens_recorder mic now env (s : Hook) (nv : nat) :
  getDisplayMedia env = DisplayGranted nv ->
  let s' := startRecording mic now env s in
  (forall i, is_live s i = true -> is_live s' i = true) /\
  (encoder_available env = true ->
   length (open_recorders s') = S (length (open_recorders s))) /\
  (encoder_available env = false ->
   recorders s' = recorders s /\ intervals s' = intervals s /\
   error s' =
     Some (not_supported_message (pick_mimeType (isTypeSupported env))) /\
   isRecording s' = isRecording s /\ mediaRecorderRef s' = mediaRecorderRef s /\
   exists audio, streamRef s' = Some (seq (length (tracks s)) nv ++ audio) /\
     forall i, i ∈ seq (length (tracks s)) nv ++ audio -> is_live s' i = true).
Proof.
  intros Hd s'. subst s'. unfold startRecording. rewrite Hd.
  split; [|split].
  - intros i. unfold is_live.
    destruct (tracks s !! i) as [t|] eqn:Ht; [|done].
    pose proof (lookup_lt_Some _ _ _ Ht).
    destruct mic; [destruct (getUserMedia env) as [[|na]|]|];
      destruct (encoder_available env), nv as [|nv]; simpl;
      rewrite ?list_lookup_alter_ne by lia;
      rewrite <- ?app_assoc; rewrite lookup_app_l by lia; by rewrite Ht.
  - intros ->.
    destruct mic; [destruct (getUserMedia env) as [[|na]|]|];
      destruct nv as [|nv]; simpl;
      unfold open_recorders; simpl;
      rewrite alter_first_new, filter_app, length_app; simpl; lia.
  - intros ->. cbn [negb].
    destruct mic; [destruct (getUserMedia env) as [[|na]|]|]; simpl;
      (do 5 (split; [done|]));
      eexists; (split; [reflexivity|]);
      intros i Hi; unfold is_live; simpl;
      rewrite ?app_nil_r in *.
    + apply elem_of_seq in Hi. by rewrite fresh_tracks_lookup by lia.
    + change (fresh_track AudioTrack :: replicate na (fresh_track AudioTrack))
        with (replicate (S na) (fresh_track AudioTrack)).
      rewrite length_app, length_replicate in Hi.
      apply elem_of_app in Hi as [Hi|Hi].
      * apply elem_of_seq in Hi.
        rewrite lookup_app_l by (rewrite length_app, length_replicate; lia).
        by rewrite fresh_tracks_lookup by lia.
      * apply (elem_of_seq (length (tracks s) + nv) (S na)) in Hi.
        rewrite fresh_tracks_lookup; [done|].
        rewrite length_app, length_replicate. lia.
    + apply elem_of_seq in Hi. by rewrite fresh_tracks_lookup by lia.
    + apply elem_of_seq in Hi. by rewrite fresh_tracks_lookup by lia.
Qed.

(** *** One session at a time *)

(** C1. [startRecording] called while a recording is running is neither
    ignored nor rejected: evaluated on the state reached by a first start,
    it reports no error, leaves the first encoder recording and the first
    stream's tracks live, and opens a second encoder on a second stream,
    which is the only one the refs still point to. Stopping afterwards ends
    the second session only. *)
Theorem second_start_opens_second_session :
  let s1 := startRecording true 0 granting initial in
  let s2 := startRecording true 5000 granting s1 in
  let s3 := onstop (stopRecording s2) in
  (isRecording s1 = true /\ rec_stream <$> open_recorders s1 = [[0; 1]]%nat) /\
  (error s2 = None /\ s2 <> s1 /\
   rec_stream <$> open_recorders s2 = [[0; 1]; [2; 3]]%nat /\
   length (live_tracks s2) = 4%nat /\
   mediaRecorderRef s2 = Some 1%nat /\ streamRef s2 = Some [2; 3]%nat) /\
  (isRecording s3 = false /\ streamRef s3 = None /\
   rec_stream <$> open_recorders s3 = [[0; 1]]%nat /\
   is_live s3 0 = true /\ is_live s3 1 = true /\
   iv_active <$> intervals s3 = [true; false]).
Proof.
  vm_compute. repeat split; try reflexivity. discriminate.
Qed.

(** *** Elapsed time *)

(** The interval callback tests the [isPaused] it captured when the
    recording started, so an interval started from an unpaused render
    reports on every firing, whatever the current [isPaused]. *)
Lemma tick_ignores_current_pause (i : nat) (now : Z) (s : Hook) :
  intervals s !! i = Some (MkInterval true false) ->
  recordingTime (tick i now s) = (now - startTimeRef s) / 1000.
Proof. unfold tick. by intros ->. Qed.

(** While recording, and after any resume, a firing reports the whole
    seconds of the time not spent paused. *)
Lemma pause_then_resume_is_excluded (t0 t1 t2 now : Z) :
  let evs := [Pause t1; Resume t2] in
  let s := run (evs ++ [Tick 0 now]) (startRecording true t0 granting initial) in
  recordingTime s = active_ms (Some t0) 0 evs now / 1000.
Proof.
  simpl. unfold run, tick. simpl. f_equal. lia.
Qed.

Lemma clocked_intro (s : Hook) (rid : nat) (r : MediaRecorder) since acc :
  isRecording s = true ->
  mediaRecorderRef s = Some rid -> recorders s !! rid = Some r ->
  rec_state r <> Inactive ->
  match since with
  | Some t0 => isPaused s = false /\ startTimeRef s = (t0 - acc)%Z
  | None => isPaused s = true /\ pausedTimeRef s = acc
  end ->
  clocked s since acc.
Proof. intros. split; [done|]. split; [by exists rid, r | done]. Qed.

(** Every event of a running session keeps the refs in agreement with the
    specified clock, and leaves the intervals alone. *)
Lemma clocked_handle (e : Event) (s : Hook) (since : option Z) (acc : Z) :
  keeps_running e ->
  clocked s since acc ->
  clocked (handle e s) (clock_step e (since, acc)).1 (clock_step e (since, acc)).2 /\
  intervals (handle e s) = intervals s.
Proof.
  intros He (Hr & (rid & r & Hrid & Hrec & Hst) & Hc).
  pose proof (lookup_lt_Some _ _ _ Hrec) as Hlt.
  destruct e as [mic t env| |t|t| | |d| | |i t|tr]; simpl in He; try contradiction;
    simpl handle.
  - unfold pauseRecording. rewrite Hrid, Hr, Hrec.
    destruct since as [t0|]; destruct Hc as [Hp Ht]; rewrite Hp; simpl.
    + unfold recorder_pause. destruct (rec_state r) eqn:E; [done| |];
        (split; [|done]);
        (apply (clocked_intro _ rid (rec_set_state Paused r)); simpl;
         [done | done | by apply list_lookup_insert_eq | done | split; [done | lia]]).
    + split; [|done]. by apply (clocked_intro _ rid r).
  - unfold resumeRecording. rewrite Hrid, Hr, Hrec.
    destruct since as [t0|]; destruct Hc as [Hp Ht]; rewrite Hp; simpl.
    + split; [|done]. by apply (clocked_intro _ rid r).
    + unfold recorder_resume. destruct (rec_state r) eqn:E; [done| |];
        (split; [|done]);
        (apply (clocked_intro _ rid (rec_set_state Recording r)); simpl;
         [done | done | by apply list_lookup_insert_eq | done | split; [done | lia]]).
  - assert (clock_step ToggleMicrophone (since, acc) = (since, acc)) as ->
      by (by destruct since).
    unfold toggleMicrophone. rewrite Hr. simpl.
    destruct (audioTrackRef s) as [a|]; [destruct (tracks s !! a)|];
      (split; [|done]); by apply (clocked_intro _ rid r).
  - assert (clock_step (DataAvailable d) (since, acc) = (since, acc)) as ->
      by (by destruct since).
    unfold ondataavailable. break_matches;
      (split; [|done]); by apply (clocked_intro _ rid r).
  - assert (clock_step RecorderError (since, acc) = (since, acc)) as ->
      by (by destruct since).
    split; [|done]. by apply (clocked_intro _ rid r).
  - assert (clock_step (Tick i t) (since, acc) = (since, acc)) as ->
      by (by destruct since).
    unfold tick. break_matches;
      (split; [|done]); by apply (clocked_intro _ rid r).
Qed.

Lemma clocked_run (evs : list Event) (s : Hook) (since : option Z) (acc : Z) :
  Forall keeps_running evs ->
  clocked s since acc ->
  let s' := run evs s in
  intervals s' = intervals s /\
  ((isPaused s' = false /\
    forall now, now - startTimeRef s' = active_ms since acc evs now) \/
   (isPaused s' = true /\
    forall now, pausedTimeRef s' = active_ms since acc evs now)).
Proof.
  revert s since acc. induction evs as [|e evs IH]; intros s since acc Hk Hc.
  - simpl. split; [done|]. destruct Hc as (_ & _ & Hc).
    destruct since as [t0|]; destruct Hc as [Hp Ht];
      [left | right]; (split; [done|]); intros now; simpl; lia.
  - inversion Hk as [|? ? He Hevs]; subst.
    destruct (clocked_handle e s since acc He Hc) as [Hc' Hi].
    destruct (IH _ _ _ Hevs Hc') as [Hi' Hcl].
    unfold run in *. simpl. split; [by rewrite Hi', Hi | exact Hcl].
Qed.

Lemma clocked_startRecording mic (t0 : Z) env (s0 : Hook) (nv : nat) :
  getDisplayMedia env = DisplayGranted (S nv) ->
  encoder_available env = true ->
  pausedTimeRef s0 = 0 ->
  let s := startRecording mic t0 env s0 in
  clocked s (Some t0) 0 /\
  intervals s = intervals s0 ++ [MkInterval true (isPaused s0)].
Proof.
  intros Hd He Hp s. subst s. unfold startRecording. rewrite Hd, He.
  destruct mic; [destruct (getUserMedia env) as [[|na]|]|]; simpl;
    (split; [|done]);
    (eapply (clocked_intro _ (length (recorders s0))
               (MkMediaRecorder _ _ Recording)); simpl;
     [ done | done
     | rewrite alter_first_new, lookup_app_r by lia;
       rewrite Nat.sub_diag; reflexivity
     | done
     | split; [done | rewrite Hp; lia] ]).
Qed.

(** X1. In a session started, in a browser that can record one of the
    three media types, from an unpaused render with a cleared pause
    accumulator, whenever the session is not paused, a firing of its interval
    reports the whole seconds of the time spent recording, for every
    sequence of pauses and resumes. *)
Lemma running_session_reports_active_time
    mic (t0 : Z) env (s0 : Hook) (nv : nat) (evs : list Event) (now : Z) :
  getDisplayMedia env = DisplayGranted (S nv) ->
  encoder_available env = true ->
  pausedTimeRef s0 = 0 ->
  isPaused s0 = false ->
  Forall keeps_running evs ->
  let s := run evs (startRecording mic t0 env s0) in
  isPaused s = false ->
  recordingTime (tick (length (intervals s0)) now s)
  = active_ms (Some t0) 0 evs now / 1000.
Proof.
  intros Hd He Hp Hu Hk s Hrun.
  destruct (clocked_startRecording mic t0 env s0 nv Hd He Hp) as [Hc Hi].
  destruct (clocked_run evs _ _ _ Hk Hc) as [Hi' Hcl]. fold s in Hi', Hcl.
  destruct Hcl as [[_ Hcl]|[Hcl _]]; [|congruence].
  rewrite tick_ignores_current_pause.
  - by rewrite Hcl.
  - rewrite Hi', Hi, Hu. rewrite lookup_app_r by lia. by rewrite Nat.sub_diag.
Qed.

(** C2. A recording starts at 0 ms, is paused at 2500 ms and stopped at
    61000 ms without being resumed: 2500 ms were spent recording. The time
    reported follows the wall clock through the pause (3 at 3000 ms, 60 at
    60000 ms) and 60 is what remains reported after the stop, where the
    time spent recording is 2 whole seconds. *)
Theorem reported_time_runs_during_pause :
  let session := [Start true 0 granting; Tick 0 1000; Tick 0 2000; Pause 2500] in
  let paused := run session initial in
  let later := run [Tick 0 3000; Tick 0 60000] paused in
  (isPaused paused = true /\ recordingTime paused = 2 /\
   active_ms (Some 0) 0 (tail session) 2500 = 2500) /\
  recordingTime (tick 0 3000 paused) = 3 /\
  (isPaused later = true /\ recordingTime later = 60 /\
   active_ms (Some 0) 0 (tail session ++ [Tick 0 3000; Tick 0 60000]) 60000 = 2500) /\
  (isRecording (stopRecording later) = false /\
   recordingTime (stopRecording later) = 60 /\
   active_ms (Some 0) 0 (tail session ++ [Tick 0 3000; Tick 0 60000; Stop]) 61000
     = 2500).
Proof.
  vm_compute. repeat split; reflexivity.
Qed.

(** *** Encoder errors *)

(** C3. The [onerror] handler sets the fixed error text and nothing else,
    in every state: the recording flag, the stream ref, the tracks, the
    encoders and the timer are as before. On a running session that means
    the session stays in the recording state with both tracks live. *)
Theorem encoder_error_releases_nothing (s : Hook) :
  (error (onerror s) = Some "Recording error occurred" /\
   isRecording (onerror s) = isRecording s /\
   isPaused (onerror s) = isPaused s /\
   streamRef (onerror s) = streamRef s /\
   tracks (onerror s) = tracks s /\
   recorders (onerror s) = recorders s /\
   timerRef (onerror s) = timerRef s /\
   intervals (onerror s) = intervals s) /\
  let r := onerror (startRecording true 0 granting initial) in
  isRecording r = true /\ streamRef r = Some [0; 1]%nat /\
  is_live r 0 = true /\ is_live r 1 = true /\
  rec_state <$> recorders r = [Recording] /\
  iv_active <$> intervals r = [true].
Proof.
  split; [by repeat split|]. vm_compute. by repeat split.
Qed.

End RecorderFacts.

(* ===================================================================== *)
(** ** Properties of trim validation                                       *)
(* ===================================================================== *)

Section TrimmerFacts.
Import Trimmer.
Local Open Scope float_scope.

Lemma validate_first_failure (start end_ duration : float) :
  validate start end_ duration = first_failure (checks start end_ duration).
Proof. unfold validate, checks, first_failure. by repeat case_match. Qed.

Lemma validate_and_trim_rejects env blob start end_ (c : Trimmer) e :
  validate start end_ (duration c) = Some e ->
  validate_and_trim env blob start end_ c = setError (Some e) c.
Proof. unfold validate_and_trim. by intros ->. Qed.

(** C5 (as the code has it). The five checks run in source order and the
    first one that fires gives the error: [NaN] start or end, then
    [start < 0], then [end > duration], then [start >= end], then
    [end - start < 0.1]; start 5, end 4, duration 10 is rejected as
    "start must be less than end". When validation rejects the input,
    [trimVideo] is not called: no file of the engine is written, executed on,
    read or deleted, nothing is handed to the parent, and with the engine
    already loaded the only change is the error. *)
Theorem trim_validation_first_failure_wins
    (env : EngineEnv) (start end_ : float) (c : Trimmer) (blob : Recorder.Blob)
    (e : ErrorMessage) :
  videoBlob c = Some blob ->
  validate start end_ (duration c) = Some e ->
  let c' := handleTrim env start end_ c in
  validate start end_ (duration c) = first_failure (checks start end_ (duration c)) /\
  validate 5 4 10 = Some StartNotBeforeEnd /\
  (error c' = Some e \/ ffmpegLoadedRef c = false /\ error c' = Some InitFailed) /\
  filter (fun x => touches_files x = true) (calls (engine c')) =
    filter (fun x => touches_files x = true) (calls (engine c)) /\
  trimmedVideoUrl c' = trimmedVideoUrl c /\
  onTrimmed c' = onTrimmed c /\
  (ffmpegLoadedRef c = true -> c' = setError (Some e) c).
Proof.
  intros Hb Hv c'. subst c'.
  split; [apply validate_first_failure|]. split; [reflexivity|].
  unfold handleTrim. rewrite Hb.
  destruct (ffmpegLoadedRef c) eqn:Hl.
  - rewrite (validate_and_trim_rejects _ _ _ _ _ e) by done. simpl. tauto.
  - unfold loadFFmpeg. simpl.
    destruct (isLoaded (engine c)) eqn:Hi; [|destruct (load_ok env)]; simpl.
    + rewrite (validate_and_trim_rejects _ _ _ _ _ e) by done. simpl.
      repeat split; auto. discriminate.
    + rewrite (validate_and_trim_rejects _ _ _ _ _ e) by done. simpl.
      rewrite filter_app. simpl. rewrite app_nil_r.
      repeat split; auto. discriminate.
    + rewrite filter_app. simpl. rewrite app_nil_r.
      repeat split; auto. discriminate.
Qed.

Lemma trim_validation_first_failure_wins_witness :
  let c' := handleTrim quiet_engine 5 4 (ten_seconds true) in
  error c' = Some StartNotBeforeEnd /\ calls (engine c') = [].
Proof.
  intros c'.
  destruct (trim_validation_first_failure_wins quiet_engine 5 4 (ten_seconds true)
              (Recorder.MkBlob [Byte.x1a; Byte.x45] "video/webm") StartNotBeforeEnd
              eq_refl eq_refl) as (_ & _ & _ & _ & _ & _ & H).
  subst c'. rewrite (H eq_refl). split; reflexivity.
Defined.

(** C5 as worded fails: an infinite time is not a finite number, yet the
    first check lets it through. With the end field holding [Infinity] for a
    blob whose duration is reported as [Infinity], all five checks pass; an
    infinite start is rejected by the fourth check, not the first. And with
    the engine not loaded yet, it is loaded before the range is looked at. *)
Lemma infinite_times_pass_the_first_check :
  isFinite infinity = false /\
  validate 0 infinity infinity = None /\
  validate_as_specified 0 infinity infinity = Some InvalidNumbers /\
  validate infinity 4 10 = Some StartNotBeforeEnd /\
  validate_as_specified infinity 4 10 = Some InvalidNumbers /\
  calls (engine (handleTrim quiet_engine 5 4 (ten_seconds false))) = [Load].
Proof. vm_compute. by repeat split. Qed.

End TrimmerFacts.

(* ===================================================================== *)
(** ** Properties of the watch analytics store                             *)
(* ===================================================================== *)

Section DbFacts.
Import Db.
Local Open Scope Z_scope.

Lemma string_app_nil_r (s : string) : s +:+ "" = s.
Proof. induction s as [|a s IH]; [done|]. unfold String.app in *. simpl. by rewrite IH. Qed.

Lemma completed_key_fresh (sessionId : string) : sessionId <> completed_key sessionId.
Proof.
  unfold completed_key. intros H.
  rewrite <- (string_app_nil_r sessionId) in H at 1.
  by apply (inj (String.app sessionId)) in H.
Qed.

(** No member of [Object.prototype] has a name that ends in [_completed]. *)
Lemma completed_key_not_inherited (sessionId : string) :
  inherited (completed_key sessionId) = false.
Proof.
  apply bool_decide_eq_false. unfold object_prototype, completed_key. intros H.
  repeat (apply elem_of_cons in H as [H|H]);
    try (by apply elem_of_nil in H);
    exfalso; revert H; generalize sessionId; clear;
    intros s H;
    repeat (destruct s as [|? s];
            [ vm_compute in H; discriminate H
            | change (String ?c s +:+ ?t) with (String c (s +:+ t)) in H;
              first [discriminate H | injection H as _ H] ]).
Qed.

Lemma not_inherited_not_proto (key : string) :
  inherited key = false -> key <> "__proto__".
Proof. intros H ->. by vm_compute in H. Qed.

Lemma js_set_insert {A} (key : string) (v : A) (obj : gmap string A) :
  key <> "__proto__" -> js_set key v obj = <[key := v]> obj.
Proof.
  intros Hk. unfold js_set. destruct (obj !! key); [done|].
  apply String.eqb_neq in Hk. by rewrite Hk.
Qed.

Lemma js_set_own {A} (key : string) (v w : A) (obj : gmap string A) :
  obj !! key = Some w -> js_set key v obj = <[key := v]> obj.
Proof. intros H. unfold js_set. by rewrite H. Qed.

Lemma js_set_lookup_ne {A} (key key' : string) (v : A) (obj : gmap string A) :
  key <> key' -> js_set key v obj !! key' = obj !! key'.
Proof.
  intros Hne. unfold js_set.
  destruct (obj !! key); [by rewrite lookup_insert_ne|].
  destruct (String.eqb key "__proto__"); [done | by rewrite lookup_insert_ne].
Qed.

Lemma falsy_at_js_set_ne (wp : gmap string JsValue) k k' v :
  k <> k' -> falsy_at (js_set k v wp) k' = falsy_at wp k'.
Proof. intros Hne. unfold falsy_at. by rewrite js_set_lookup_ne. Qed.

Lemma member_own (db : gmap string VideoRecord) videoId r :
  db !! videoId = Some r -> member db videoId = Own r.
Proof. intros H. unfold member. by rewrite H. Qed.

Lemma updateWatchProgress_existing fuel now videoId sessionId progress
    (db : gmap string VideoRecord) (r : VideoRecord) :
  db !! videoId = Some r ->
  updateWatchProgress fuel now videoId sessionId progress db =
  Some (Returned (<[videoId := record_progress sessionId progress r]> db)).
Proof. intros Hr. destruct fuel; simpl; by rewrite (member_own _ _ _ Hr). Qed.

Lemma updateWatchProgress_total fuel now videoId sessionId progress
    (db : gmap string VideoRecord) :
  storable videoId db ->
  updateWatchProgress (S fuel) now videoId sessionId progress db =
  Some (Returned
          (<[videoId := record_progress sessionId progress (record_or_new now videoId db)]>
             db)).
Proof.
  unfold record_or_new. intros Hs.
  destruct (db !! videoId) as [r|] eqn:Hr; [by apply updateWatchProgress_existing|].
  destruct Hs as [Hs|Hs]; [done|].
  cbn [updateWatchProgress]. unfold member at 1. rewrite Hr, Hs.
  unfold createVideoRecord. cbn [fst].
  rewrite js_set_insert by (by apply not_inherited_not_proto).
  erewrite updateWatchProgress_existing by apply lookup_insert_eq.
  by rewrite insert_insert_eq.
Qed.

(** Under the name of an inherited member nothing is recorded: the call
    throws, whatever the fuel. *)
Lemma updateWatchProgress_inherited fuel now videoId sessionId progress
    (db : gmap string VideoRecord) :
  db !! videoId = None -> inherited videoId = true ->
  updateWatchProgress fuel now videoId sessionId progress db = Some Thrown.
Proof. intros Hr Hi. destruct fuel; simpl; unfold member; by rewrite Hr, Hi. Qed.

(** After an update at or above the threshold the session carries the flag. *)
Lemma record_progress_flags sessionId progress (r : VideoRecord) :
  PrimFloat.leb completion_threshold progress = true ->
  falsy_at (watchProgress (record_progress sessionId progress r))
           (completed_key sessionId) = false.
Proof.
  intros Hp. unfold record_progress. rewrite Hp. cbn [andb].
  destruct (falsy_at (js_set sessionId (through_json (JsNumber progress))
                        (watchProgress r))
                     (completed_key sessionId)) eqn:Hf; cbn [watchProgress];
    [|done].
  rewrite js_set_insert
    by (apply not_inherited_not_proto, completed_key_not_inherited).
  unfold falsy_at. by rewrite lookup_insert_eq.
Qed.

(** An update for a flagged session leaves the counter alone. *)
Lemma record_progress_flagged sessionId progress (r : VideoRecord) :
  falsy_at (watchProgress r) (completed_key sessionId) = false ->
  watchCompletions (record_progress sessionId progress r) = watchCompletions r.
Proof.
  intros Hf. unfold record_progress.
  rewrite falsy_at_js_set_ne by apply completed_key_fresh. rewrite Hf.
  by rewrite andb_false_r.
Qed.

(** An update at or above the threshold for a session that is not flagged
    counts, and flags the session. *)
Lemma record_progress_counts sessionId progress (r : VideoRecord) :
  PrimFloat.leb completion_threshold progress = true ->
  falsy_at (watchProgress r) (completed_key sessionId) = true ->
  watchCompletions (record_progress sessionId progress r)
    = add_one (watchCompletions r).
Proof.
  intros Hp Hf. unfold record_progress.
  rewrite falsy_at_js_set_ne by apply completed_key_fresh. by rewrite Hp, Hf.
Qed.

Lemma add_one_exact (n : Z) : n < 2 ^ 53 -> add_one n = n + 1.
Proof. intros H. unfold add_one. by rewrite bool_decide_eq_true_2. Qed.

Lemma add_one_bounds (n : Z) : n <= add_one n <= n + 1.
Proof. unfold add_one. case_bool_decide; lia. Qed.

Lemma completions_record_or_new now videoId (db : gmap string VideoRecord) :
  watchCompletions (record_or_new now videoId db) = completions videoId db.
Proof. unfold record_or_new, completions. by destruct (db !! videoId). Qed.

Lemma not_completed_record_or_new now videoId sessionId (db : gmap string VideoRecord) :
  falsy_at (watchProgress (record_or_new now videoId db)) (completed_key sessionId)
    = not_completed videoId sessionId db.
Proof.
  unfold record_or_new, not_completed. destruct (db !! videoId); [done|]. simpl.
  unfold falsy_at. rewrite lookup_empty. by rewrite completed_key_not_inherited.
Qed.

(** C8. The completion flag of a session is kept among the progress
    entries, under the session's id followed by [_completed], and the
    store is indexed with ids as they come. For two reports in a row of a
    session not flagged before, the first at or above 0.95, the counter
    goes up by one in all, as the flag is meant to ensure. Evaluated on an
    empty store, three cases where a session's completion is not counted
    once: a session named [s_completed] reports progress 0 between two
    reports of session [s] at 0.95, and the completion of [s] is counted
    twice; the same session reports 0.5 before [s] does, and the completion
    of [s] is never counted; the video id is [constructor], and the report
    throws with nothing recorded. *)
Theorem completion_counted_per_flag_not_per_session :
  let hi := completion_threshold in
  let t := "2024-01-01T00:00:00.000Z" in
  (forall fuel1 fuel2 now1 now2 videoId sessionId progress1 progress2
          (db : gmap string VideoRecord),
     storable videoId db ->
     PrimFloat.leb completion_threshold progress1 = true ->
     not_completed videoId sessionId db = true ->
     0 <= completions videoId db < 2 ^ 53 ->
     exists db1 db2,
       updateWatchProgress (S fuel1) now1 videoId sessionId progress1 db
         = Some (Returned db1) /\
       updateWatchProgress fuel2 now2 videoId sessionId progress2 db1
         = Some (Returned db2) /\
       completions videoId db1 = completions videoId db + 1 /\
       completions videoId db2 = completions videoId db + 1) /\
  (completions "video" (report_all t "video" [("s", hi)] ∅) = 1 /\
   completions "video"
     (report_all t "video" [("s", hi); ("s_completed", 0%float)] ∅) = 1 /\
   completions "video"
     (report_all t "video" [("s", hi); ("s_completed", 0%float); ("s", hi)] ∅) = 2) /\
  (completions "video"
     (report_all t "video" [("s_completed", 0x1p-1%float); ("s", hi); ("s", hi)] ∅)
   = 0) /\
  (updateWatchProgress 1 t "constructor" "s" hi ∅ = Some Thrown /\
   report_all t "constructor" [("s", hi); ("s", hi)] ∅ = ∅).
Proof.
  intros hi t. split; [|split; [|split]].
  - intros fuel1 fuel2 now1 now2 videoId sessionId progress1 progress2 db
      Hs Hp Hn Hb.
    set (r1 := record_progress sessionId progress1 (record_or_new now1 videoId db)).
    exists (<[videoId := r1]> db),
           (<[videoId := record_progress sessionId progress2 r1]> (<[videoId := r1]> db)).
    split; [by apply updateWatchProgress_total|].
    split; [apply updateWatchProgress_existing; by rewrite lookup_insert_eq|].
    assert (watchCompletions r1 = completions videoId db + 1) as H1.
    { subst r1. rewrite record_progress_counts; [|done|].
      - rewrite completions_record_or_new. apply add_one_exact. lia.
      - by rewrite not_completed_record_or_new. }
    unfold completions at 1 3. rewrite !lookup_insert_eq.
    split; [exact H1|].
    rewrite record_progress_flagged; [exact H1|].
    by apply record_progress_flags.
  - repeat split; reflexivity.
  - reflexivity.
  - split; reflexivity.
Qed.

End DbFacts.

(* ===================================================================== *)
(** ** Properties of the video route                                       *)
(* ===================================================================== *)

Section StorageFacts.
Import Storage.

Lemma app_String (a : ascii) (s t : string) : String a s +:+ t = String a (s +:+ t).
Proof. reflexivity. Qed.

Lemma app_empty (t : string) : "" +:+ t = t.
Proof. reflexivity. Qed.

Lemma string_app_assoc (a b c : string) : (a +:+ b) +:+ c = a +:+ (b +:+ c).
Proof. induction a as [|x a IH]; [done|]. by rewrite !app_String, IH. Qed.

Lemma split_slash_nonempty (s : string) : split_slash s <> [].
Proof.
  induction s as [|c s IH]; simpl; [done|].
  destruct (Ascii.eqb c slash); [done|]. by destruct (split_slash s).
Qed.

Lemma split_slash_app (a b : string) :
  split_slash (a +:+ String slash b) = split_slash a ++ split_slash b.
Proof.
  induction a as [|c a IH].
  - by rewrite app_empty.
  - rewrite app_String. simpl. destruct (Ascii.eqb c slash); rewrite IH; [done|].
    pose proof (split_slash_nonempty a). by destruct (split_slash a).
Qed.

Lemma join_slash_snoc (ds : list string) (x : string) :
  join_slash (ds ++ [x]) =
  match ds with
  | [] => x
  | _ => join_slash ds +:+ String slash x
  end.
Proof.
  destruct ds as [|d ds]; [done|]. simpl. by rewrite foldl_app.
Qed.

Lemma split_join (ds : list string) :
  Forall plain_name ds -> ds <> [] -> split_slash (join_slash ds) = ds.
Proof.
  induction ds as [|x ds IH] using rev_ind; [done|]. intros Hp _.
  apply Forall_app in Hp as [Hds Hx]. inversion Hx as [|? ? (_ & _ & _ & Hsplit) _]; subst.
  rewrite join_slash_snoc. destruct ds as [|d ds]; [done|].
  rewrite split_slash_app, IH, Hsplit by done. done.
Qed.

Lemma normalize_segments_plain (b : bool) (ds stack rest : list string) :
  Forall plain_name ds ->
  normalize_segments b stack (ds ++ rest) = normalize_segments b (rev ds ++ stack) rest.
Proof.
  revert stack. induction ds as [|d ds IH]; intros stack Hp; [done|].
  inversion Hp as [|? ? (H1 & H2 & H3 & _) Hds]; subst. simpl.
  apply String.eqb_neq in H1, H2, H3. rewrite H1, H2, H3. simpl.
  rewrite IH by done. by rewrite <- app_assoc.
Qed.

Lemma normalize_segments_split_join (b : bool) (ds stack rest : list string) :
  Forall plain_name ds ->
  normalize_segments b stack (split_slash (join_slash ds) ++ rest) =
  normalize_segments b (rev ds ++ stack) rest.
Proof.
  intros Hp. destruct ds as [|d ds]; [done|].
  rewrite split_join by done. by apply normalize_segments_plain.
Qed.

Lemma ends_with_slash_app (a : string) (c : ascii) (b : string) :
  ends_with_slash (a +:+ String c b) = ends_with_slash (String c b).
Proof.
  induction a as [|x a IH]; [done|]. rewrite app_String.
  change (ends_with_slash (String x (a +:+ String c b)))
    with (match a +:+ String c b with
          | EmptyString => Ascii.eqb x slash
          | _ => ends_with_slash (a +:+ String c b)
          end).
  rewrite <- IH. destruct a; by rewrite ?app_empty, ?app_String.
Qed.

Lemma join_slash_dir_prefix (ds : list string) (y : string) :
  join_slash (ds ++ [y]) = dir_prefix ds +:+ y.
Proof.
  rewrite join_slash_snoc. unfold dir_prefix. destruct ds as [|d ds]; [done|].
  by rewrite string_app_assoc.
Qed.

Lemma join_slash_not_empty (ds : list string) (c : ascii) (x : string) :
  String.eqb (join_slash (ds ++ [String c x])) "" = false.
Proof.
  rewrite join_slash_dir_prefix. apply String.eqb_neq.
  destruct (dir_prefix ds); by rewrite ?app_empty, ?app_String.
Qed.

(** [path.join] of an absolute normalised directory and a relative path
    that does not end in a separator: the segments of the relative path are
    applied to the directory's names. *)
Lemma path_join_absolute (ds : list string) (c : ascii) (x : string)
    (out : list string) (d : ascii) (y : string) :
  Forall plain_name ds ->
  ends_with_slash (String c x) = false ->
  normalize_segments false (rev ds) (split_slash (String c x)) = out ++ [String d y] ->
  path_join (absolute_dir ds) (String c x) = absolute_dir (out ++ [String d y]).
Proof.
  intros Hds Hend Hout. unfold path_join, absolute_dir.
  change ("/" +:+ join_slash ds) with (String slash (join_slash ds)).
  change ("/" +:+ String c x) with (String slash (String c x)).
  set (J := join_slash ds).
  change (String.eqb (String slash J) "") with false.
  change (String.eqb (String c x) "") with false. cbv iota.
  unfold normalize.
  change (String.eqb (String slash J +:+ String slash (String c x)) "") with false.
  cbv iota.
  change (starts_with_slash (String slash J +:+ String slash (String c x))) with true.
  rewrite ends_with_slash_app.
  change (ends_with_slash (String slash (String c x)))
    with (ends_with_slash (String c x)).
  rewrite Hend, split_slash_app. simpl negb.
  change (split_slash (String slash J)) with ("" :: split_slash J).
  change (normalize_segments false [] (("" :: split_slash J) ++ split_slash (String c x)))
    with (normalize_segments false [] (split_slash J ++ split_slash (String c x))).
  subst J. rewrite normalize_segments_split_join by done.
  rewrite app_nil_r, Hout. by rewrite join_slash_not_empty.
Qed.

Lemma plain_uploads : plain_name "uploads".
Proof. by repeat split. Qed.

Lemma UPLOADS_DIR_absolute (ds : list string) :
  Forall plain_name ds ->
  UPLOADS_DIR (absolute_dir ds) = absolute_dir (ds ++ ["uploads"]).
Proof.
  intros Hds. unfold UPLOADS_DIR. apply path_join_absolute; [done..|].
  simpl. by rewrite rev_involutive.
Qed.

(** A parent segment in the id removes [uploads] from the path. *)
Lemma getVideoPath_parent (ds : list string) :
  Forall plain_name ds ->
  getVideoPath (absolute_dir ds) "../outside" = absolute_dir (ds ++ ["outside.webm"]).
Proof.
  intros Hds. unfold getVideoPath. rewrite UPLOADS_DIR_absolute by done.
  change ("../outside" +:+ ".webm") with "../outside.webm".
  apply path_join_absolute.
  - apply Forall_app. split; [done|]. constructor; [apply plain_uploads | constructor].
  - reflexivity.
  - rewrite rev_app_distr. simpl. by rewrite rev_involutive.
Qed.

Lemma prefix_app_same (a b c : string) :
  String.prefix (a +:+ b) (a +:+ c) = String.prefix b c.
Proof.
  induction a as [|x a IH]; [done|]. rewrite !app_String. simpl.
  destruct (ascii_dec x x); [exact IH | contradiction].
Qed.

Lemma outside_uploads (ds : list string) :
  Forall plain_name ds ->
  inside_uploads (absolute_dir ds) (absolute_dir (ds ++ ["outside.webm"])) = false.
Proof.
  intros Hds. unfold inside_uploads.
  rewrite UPLOADS_DIR_absolute by done. unfold absolute_dir.
  rewrite !join_slash_dir_prefix.
  by rewrite !string_app_assoc, !prefix_app_same.
Qed.

(** An id that is a plain file name stays under the uploads directory. *)
Lemma plain_id_inside_uploads (ds : list string) (videoId : string) :
  Forall plain_name ds ->
  plain_name (videoId +:+ ".webm") ->
  ends_with_slash (videoId +:+ ".webm") = false ->
  inside_uploads (absolute_dir ds) (getVideoPath (absolute_dir ds) videoId) = true.
Proof.
  intros Hds Hid Hend. unfold inside_uploads, getVideoPath.
  rewrite UPLOADS_DIR_absolute by done.
  destruct (videoId +:+ ".webm") as [|c x] eqn:Hn; [by destruct Hid|].
  rewrite (path_join_absolute (ds ++ ["uploads"]) c x (ds ++ ["uploads"]) c x).
  - unfold absolute_dir. rewrite (join_slash_dir_prefix (ds ++ ["uploads"])).
    unfold dir_prefix at 1.
    destruct (ds ++ ["uploads"]) as [|u us] eqn:Hu; [by destruct ds|].
    rewrite <- string_app_assoc.
    rewrite <- (string_app_nil_r (("/" +:+ join_slash (u :: us)) +:+ "/")) at 1.
    by rewrite prefix_app_same.
  - apply Forall_app. split; [done|]. constructor; [apply plain_uploads | constructor].
  - done.
  - destruct Hid as (H1 & H2 & H3 & Hsplit). rewrite Hsplit.
    cbn [normalize_segments].
    apply String.eqb_neq in H1, H2, H3. rewrite H1, H2, H3.
    cbn [orb rev]. by rewrite rev_involutive.
Qed.

(** C10. For every working directory there is an id, here [../outside],
    whose file path, built by [getVideoPath], is [outside.webm] in the
    working directory itself, which is not under the uploads directory; and
    whenever that file exists, [GET] answers with its content as
    [video/webm]. *)
Theorem video_id_escapes_uploads_directory (dirs : list string) :
  Forall plain_name dirs ->
  let cwd := absolute_dir dirs in
  exists videoId : string,
    getVideoPath cwd videoId = absolute_dir (dirs ++ ["outside.webm"]) /\
    inside_uploads cwd (getVideoPath cwd videoId) = false /\
    forall (fs : string -> option (list Byte.byte)) (body : list Byte.byte),
      fs (getVideoPath cwd videoId) = Some body ->
      GET cwd fs videoId =
        VideoFile body "video/webm" (length body) "public, max-age=31536000, immutable".
Proof.
  intros Hds cwd. exists "../outside". subst cwd.
  rewrite getVideoPath_parent by done.
  split; [done|]. split; [by apply outside_uploads|].
  intros fs body Hfs. unfold GET, videoExists.
  rewrite getVideoPath_parent by done. rewrite Hfs.
  rewrite bool_decide_eq_true_2 by eauto. done.
Qed.

Lemma video_id_escapes_uploads_directory_witness :
  exists videoId : string,
    getVideoPath "/srv/app" videoId = "/srv/app/outside.webm" /\
    inside_uploads "/srv/app" "/srv/app/outside.webm" = false.
Proof.
  destruct (video_id_escapes_uploads_directory ["srv"; "app"]) as (videoId & H1 & H2 & _).
  - repeat constructor; done.
  - exists videoId. split; [exact H1|]. rewrite H1 in H2. exact H2.
Defined.

End StorageFacts.

(* ===================================================================== *)
(** ** Further properties of the recording hook                            *)
(* ===================================================================== *)

Section RecorderMore.
Import Recorder.
Local Open Scope Z_scope.

Ltac split_matches :=
  repeat match goal with
         | |- context [match ?x with _ => _ end] => destruct x eqn:?; simpl in *
         end.

(** Two hook states with the same sixteen fields are the same. *)
Lemma hook_ext (s s' : Hook) :
  isRecording s = isRecording s' -> isPaused s = isPaused s' ->
  recordingTime s = recordingTime s' -> videoBlob s = videoBlob s' ->
  error s = error s' -> isMicrophoneEnabled s = isMicrophoneEnabled s' ->
  mediaRecorderRef s = mediaRecorderRef s' -> streamRef s = streamRef s' ->
  audioTrackRef s = audioTrackRef s' -> chunksRef s = chunksRef s' ->
  timerRef s = timerRef s' -> startTimeRef s = startTimeRef s' ->
  pausedTimeRef s = pausedTimeRef s' -> tracks s = tracks s' ->
  recorders s = recorders s' -> intervals s = intervals s' ->
  memoIsRecording s = memoIsRecording s' ->
  s = s'.
Proof. destruct s, s'; simpl; intros; by subst. Qed.

Lemma running_session_reports_active_time_witness :
  recordingTime
    (tick 0 12000 (run [Pause 2500; Resume 10000]
                       (startRecording true 0 granting initial))) = 4.
Proof.
  apply (running_session_reports_active_time true 0 granting initial 0
           [Pause 2500; Resume 10000] 12000); try reflexivity.
  repeat constructor.
Defined.

Lemma startRecording_opens_recorder_witness :
  let s := startRecording true 0 granting initial in
  length (open_recorders (startRecording false 9000 granting s)) = 2%nat.
Proof.
  intros s.
  destruct (startRecording_opens_recorder false 9000 granting s 1 eq_refl)
    as (_ & H & _).
  exact (H eq_refl).
Defined.

(** *** Releasing the stream *)

Lemma track_stop_twice (t : Track) : track_stop (track_stop t) = track_stop t.
Proof. by destruct t. Qed.

Lemma stop_tracks_lookup (ids : list nat) (ts : list Track) (i : nat) :
  stop_tracks ids ts !! i =
  (if bool_decide (i ∈ ids) then track_stop else id) <$> ts !! i.
Proof.
  unfold stop_tracks. revert ts. induction ids as [|j ids IH]; intros ts; simpl.
  - by destruct (ts !! i).
  - rewrite IH, list_lookup_alter.
    destruct (decide (j = i)) as [->|Hne].
    + rewrite (bool_decide_eq_true_2 (i ∈ i :: ids)) by (by constructor).
      destruct (ts !! i) as [t|]; simpl; [|by case_bool_decide].
      case_bool_decide; simpl; by rewrite ?track_stop_twice.
    + destruct (decide (i ∈ ids)) as [Hin|Hin].
      * rewrite !bool_decide_eq_true_2; [done | by constructor | done].
      * rewrite !bool_decide_eq_false_2; [done | | done].
        intros Hc. apply elem_of_cons in Hc as [->|Hc]; done.
Qed.

Lemma stop_tracks_not_live (ids : list nat) (ts : list Track) (i : nat) (t : Track) :
  i ∈ ids -> stop_tracks ids ts !! i = Some t -> readyState t = Ended.
Proof.
  intros Hin. rewrite stop_tracks_lookup, bool_decide_eq_true_2 by done.
  destruct (ts !! i) as [t0|]; simpl; [|done]. by intros [= <-].
Qed.

(** X3. [onstop] ends every track of the stream the hook holds and drops the
    stream and the audio track reference; tracks that are not in the stream
    are left as they are, and no track changes its [enabled] flag. *)
Theorem onstop_releases_the_stream (s : Hook) (ids : list nat) :
  streamRef s = Some ids ->
  let f := onstop s in
  streamRef f = None /\ audioTrackRef f = None /\
  (forall i, i ∈ ids -> is_live f i = false) /\
  (forall i, i ∉ ids -> tracks f !! i = tracks s !! i) /\
  (forall i, enabled <$> tracks f !! i = enabled <$> tracks s !! i).
Proof.
  intros Hs f. subst f. unfold onstop, release_stream. simpl. rewrite Hs.
  split; [done|]. split; [done|]. simpl. split; [|split].
  - intros i Hin. unfold is_live. simpl.
    destruct (stop_tracks ids (tracks s) !! i) as [t|] eqn:Ht; [|done].
    rewrite (stop_tracks_not_live _ _ _ _ Hin Ht). done.
  - intros i Hin. rewrite stop_tracks_lookup, bool_decide_eq_false_2 by done.
    by destruct (tracks s !! i).
  - intros i. rewrite stop_tracks_lookup.
    destruct (tracks s !! i) as [t|]; [|done]. by case_bool_decide.
Qed.

Lemma onstop_releases_the_stream_witness :
  let f := onstop (stopRecording (startRecording true 0 granting initial)) in
  streamRef f = None /\ is_live f 0 = false /\ is_live f 1 = false.
Proof.
  intros f.
  destruct (onstop_releases_the_stream
              (stopRecording (startRecording true 0 granting initial))
              [0; 1]%nat eq_refl) as (H1 & _ & H3 & _).
  split; [exact H1|]. split; apply H3; set_solver.
Defined.

Lemma resetRecording_tracks (s : Hook) :
  tracks (resetRecording s) =
  match streamRef s with
  | Some ids => stop_tracks ids (tracks s)
  | None => tracks s
  end.
Proof.
  unfold resetRecording, release_stream, clear_timer.
  destruct s as [r p t b e m [rid|] [ids|] a c [i|] st pt tk rc iv mm]; simpl;
    by destruct r.
Qed.

Lemma resetRecording_intervals (s : Hook) :
  intervals (resetRecording s) =
  match timerRef s with
  | Some i => alter (fun iv => MkInterval false (iv_isPaused iv)) i (intervals s)
  | None => intervals s
  end.
Proof.
  unfold resetRecording, release_stream, clear_timer.
  destruct s as [r p t b e m [rid|] [ids|] a c [i|] st pt tk rc iv mm]; simpl;
    by destruct r.
Qed.

Lemma resetRecording_recorders (s : Hook) :
  recorders (resetRecording s) =
  match mediaRecorderRef s with
  | Some rid =>
    if isRecording s then alter recorder_stop rid (recorders s) else recorders s
  | None => recorders s
  end.
Proof.
  unfold resetRecording, release_stream, clear_timer.
  destruct s as [r p t b e m [rid|] [ids|] a c [i|] st pt tk rc iv mm]; simpl;
    by destruct r.
Qed.

(** X4. [resetRecording] brings every state variable back to its default
    (the microphone flag to enabled), clears the stream, audio, timer, chunk
    and pause refs, ends every track of the stream it held, deactivates its
    interval and, when a recording was running, stops its encoder. *)
Theorem resetRecording_restores_defaults_and_releases (s : Hook) :
  let r := resetRecording s in
  (isRecording r = false /\ isPaused r = false /\ recordingTime r = 0 /\
   videoBlob r = None /\ error r = None /\ isMicrophoneEnabled r = true) /\
  (streamRef r = None /\ audioTrackRef r = None /\ timerRef r = None /\
   chunksRef r = [] /\ pausedTimeRef r = 0) /\
  (forall ids i, streamRef s = Some ids -> i ∈ ids -> is_live r i = false) /\
  (forall t iv, timerRef s = Some t -> intervals r !! t = Some iv ->
                iv_active iv = false) /\
  (forall rid rec, isRecording s = true -> mediaRecorderRef s = Some rid ->
                   recorders r !! rid = Some rec -> rec_state rec = Inactive).
Proof.
  intros r. subst r. split; [|split; [|split; [|split]]].
  - unfold resetRecording. by repeat split.
  - unfold resetRecording, clear_timer, release_stream.
    destruct s as [r p t b e m [rid|] [ids|] a c [i|] st pt tk rc iv mm]; simpl;
      by destruct r.
  - intros ids i Hs Hin. unfold is_live. rewrite resetRecording_tracks, Hs.
    destruct (stop_tracks ids (tracks s) !! i) as [t|] eqn:E; [|done].
    by rewrite (stop_tracks_not_live _ _ _ _ Hin E).
  - intros t iv Ht. rewrite resetRecording_intervals, Ht, list_lookup_alter_eq.
    destruct (intervals s !! t); simpl; [|done]. by intros [= <-].
  - intros rid rec Hr Hm. rewrite resetRecording_recorders, Hm, Hr.
    rewrite list_lookup_alter_eq. destruct (recorders s !! rid); simpl; [|done].
    by intros [= <-].
Qed.

Lemma resetRecording_closed (s : Hook) :
  resetRecording s =
  MkHook false false 0 None None true (mediaRecorderRef s) None None [] None
    (startTimeRef s) 0
    (tracks (resetRecording s)) (recorders (resetRecording s))
    (intervals (resetRecording s))
    (if isPaused s then false else memoIsRecording s).
Proof.
  unfold resetRecording, release_stream, clear_timer.
  destruct s as [r p t b e m [rid|] [ids|] a c [i|] st pt tk rc iv mm]; simpl;
    by destruct r, p.
Qed.

(** X5. Resetting twice is resetting once. *)
Theorem resetRecording_idempotent (s : Hook) :
  resetRecording (resetRecording s) = resetRecording s.
Proof.
  pose proof (resetRecording_closed s) as HR.
  rewrite (resetRecording_closed (resetRecording s)).
  rewrite resetRecording_tracks, resetRecording_recorders, resetRecording_intervals.
  set (R := resetRecording s) in *.
  assert (mediaRecorderRef R = mediaRecorderRef s) as -> by (by rewrite HR).
  assert (startTimeRef R = startTimeRef s) as -> by (by rewrite HR).
  assert (isRecording R = false) as -> by (by rewrite HR).
  assert (streamRef R = None) as -> by (by rewrite HR).
  assert (timerRef R = None) as -> by (by rewrite HR).
  assert (isPaused R = false) as -> by (by rewrite HR).
  assert (memoIsRecording R = if isPaused s then false else memoIsRecording s)
    as -> by (by rewrite HR).
  symmetry. etrans; [exact HR|]. by destruct (mediaRecorderRef s).
Qed.

(** *** Stopping, pausing and resuming *)

(** X6. After [stopRecording] on a running session the flags are down, the
    encoder is inactive and the interval is cleared: a late firing of that
    interval changes nothing, so the time reported at the stop stays. The
    stream is still held, for [onstop] to release. *)
Theorem stopped_session_ignores_late_ticks (s : Hook) (rid i : nat) (now : Z) :
  mediaRecorderRef s = Some rid ->
  isRecording s = true ->
  timerRef s = Some i ->
  let f := stopRecording s in
  isRecording f = false /\ isPaused f = false /\ timerRef f = None /\
  tick i now f = f /\
  recordingTime f = recordingTime s /\
  (forall rec, recorders f !! rid = Some rec -> rec_state rec = Inactive) /\
  streamRef f = streamRef s /\ tracks f = tracks s.
Proof.
  intros Hm Hr Ht f. subst f. unfold stopRecording, stopRecording_in, clear_timer.
  rewrite Hm, Hr. simpl. rewrite Ht. simpl. repeat split.
  - unfold tick. simpl. rewrite list_lookup_alter_eq.
    by destruct (intervals s !! i).
  - intros rec. rewrite list_lookup_alter_eq.
    destruct (recorders s !! rid); simpl; [|done]. by intros [= <-].
Qed.

Lemma stopped_session_ignores_late_ticks_witness :
  let f := stopRecording (tick 0 7300 (startRecording true 0 granting initial)) in
  tick 0 90000 f = f /\ recordingTime f = 7.
Proof.
  intros f.
  destruct (stopped_session_ignores_late_ticks
              (tick 0 7300 (startRecording true 0 granting initial)) 0 0 90000
              eq_refl eq_refl eq_refl) as (_ & _ & _ & H4 & H5 & _).
  split; [exact H4 | exact H5].
Defined.

Lemma pauseRecording_cases (s : Hook) (t : Z) :
  (forall t', pauseRecording t' s = s) \/ isPaused (pauseRecording t s) = true.
Proof.
  unfold pauseRecording.
  destruct (mediaRecorderRef s) as [rid|]; [|by left].
  destruct (isRecording s && negb (isPaused s)); [|by left].
  destruct (recorders s !! rid ≫= recorder_pause); [by right | by left].
Qed.

Lemma resumeRecording_cases (s : Hook) (t : Z) :
  (forall t', resumeRecording t' s = s) \/ isPaused (resumeRecording t s) = false.
Proof.
  unfold resumeRecording.
  destruct (mediaRecorderRef s) as [rid|]; [|by left].
  destruct (isRecording s && isPaused s); [|by left].
  destruct (recorders s !! rid ≫= recorder_resume); [by right | by left].
Qed.

(** X7. A second pause without a resume in between does nothing, and so does
    a second resume without a pause in between: the frozen time and the time
    origin are not overwritten. *)
Theorem pause_and_resume_are_idempotent (s : Hook) (t1 t2 : Z) :
  pauseRecording t2 (pauseRecording t1 s) = pauseRecording t1 s /\
  resumeRecording t2 (resumeRecording t1 s) = resumeRecording t1 s.
Proof.
  split.
  - destruct (pauseRecording_cases s t1) as [H|H]; [by rewrite !H|].
    unfold pauseRecording at 1. rewrite H, andb_false_r.
    by destruct (mediaRecorderRef (pauseRecording t1 s)).
  - destruct (resumeRecording_cases s t1) as [H|H]; [by rewrite !H|].
    unfold resumeRecording at 1. rewrite H, andb_false_r.
    by destruct (mediaRecorderRef (resumeRecording t1 s)).
Qed.

(** X8. On a running, unpaused session with a cleared pause accumulator, a
    pause at [t1] followed by a resume at [t2] moves the time origin forward
    by the length of the pause and changes nothing else in the state, the
    refs and the browser objects; paused and resumed at the same instant,
    these are exactly as before. The two changes of [isPaused] re-create
    [startRecording] on the way, around a [stopRecording] that sees the
    recording, which is all that may differ from the state before. *)
Theorem pause_then_resume_shifts_the_origin
    (s : Hook) (rid : nat) (r : MediaRecorder) (t1 t2 : Z) :
  mediaRecorderRef s = Some rid ->
  recorders s !! rid = Some r ->
  rec_state r = Recording ->
  isRecording s = true ->
  isPaused s = false ->
  pausedTimeRef s = 0 ->
  resumeRecording t2 (pauseRecording t1 s)
    = set_memoIsRecording true (set_startTimeRef (startTimeRef s + (t2 - t1)) s) /\
  resumeRecording t1 (pauseRecording t1 s) = set_memoIsRecording true s /\
  (memoIsRecording s = true -> resumeRecording t1 (pauseRecording t1 s) = s).
Proof.
  intros Hm Hrec Hst Hr Hp Hz.
  assert (forall t, resumeRecording t (pauseRecording t1 s)
                    = set_memoIsRecording true
                        (set_startTimeRef (startTimeRef s + (t - t1)) s)) as H.
  { intros t. unfold pauseRecording. rewrite Hm, Hr, Hp, Hrec. simpl.
    unfold recorder_pause. rewrite Hst.
    unfold resumeRecording. simpl. rewrite Hm, Hr. simpl.
    rewrite list_lookup_insert_eq by (by eapply lookup_lt_Some). simpl.
    apply hook_ext; simpl; try done; try lia.
    rewrite list_insert_insert_eq.
    replace (rec_set_state Recording (rec_set_state Paused r)) with r
      by (destruct r; simpl in *; by subst).
    by rewrite list_insert_id. }
  assert (resumeRecording t1 (pauseRecording t1 s) = set_memoIsRecording true s)
    as H0.
  { rewrite H. replace (startTimeRef s + (t1 - t1)) with (startTimeRef s) by lia.
    by destruct s. }
  split; [apply H|]. split; [exact H0|].
  intros Hmemo. rewrite H0. destruct s; simpl in *. by subst.
Qed.

Lemma pause_then_resume_shifts_the_origin_witness :
  let s := startRecording true 1000 granting initial in
  startTimeRef (resumeRecording 9000 (pauseRecording 4000 s)) = 6000 /\
  resumeRecording 4000 (pauseRecording 4000 s) = set_memoIsRecording true s.
Proof.
  intros s.
  destruct (pause_then_resume_shifts_the_origin s 0
              (MkMediaRecorder [0; 1]%nat "video/webm;codecs=vp9,opus" Recording)
              4000 9000 eq_refl eq_refl eq_refl eq_refl eq_refl eq_refl)
    as (H1 & H2 & _).
  split; [by rewrite H1 | exact H2].
Defined.

(** *** Acquisition *)

(** X9. With the microphone switched off the answer of the microphone is
    never looked at: the resulting state is the same whatever it would be,
    and with the screen granted the stream holds the new video tracks only,
    no audio track is referenced anew and the microphone flag is off. *)
Theorem microphone_off_never_asks_for_it
    (s : Hook) (now : Z) (display : DisplayResult) (mic1 mic2 : MicResult)
    (supported : string -> bool) (nv : nat) :
  startRecording false now (MkEnv display mic1 supported) s
    = startRecording false now (MkEnv display mic2 supported) s /\
  let s' := startRecording false now (MkEnv (DisplayGranted (S nv)) mic1 supported) s in
  streamRef s' = Some (seq (length (tracks s)) (S nv)) /\
  length (tracks s') = (length (tracks s) + S nv)%nat /\
  (forall i t, tracks s' !! i = Some t -> (length (tracks s) <= i)%nat ->
               kind t = VideoTrack) /\
  audioTrackRef s' = audioTrackRef s /\
  isMicrophoneEnabled s' = false.
Proof.
  split; [reflexivity|]. unfold startRecording, encoder_available.
  cbn [getDisplayMedia isTypeSupported].
  destruct (supported (pick_mimeType supported)); simpl;
    rewrite ?alter_first_new, app_nil_r; repeat split;
    try (rewrite length_app; simpl; by rewrite length_replicate);
    intros i t Hl Hge; rewrite lookup_app_r in Hl by done;
    (destruct (i - length (tracks s))%nat as [|k]; simpl in Hl;
     [ by injection Hl as <-
     | by apply lookup_replicate_1 in Hl as [-> _] ]).
Qed.

(** *** The browser ends the shared track *)

(** What a start that gets as far as recording leaves behind. *)
Lemma startRecording_started mic now env (s0 : Hook) (nv : nat) :
  getDisplayMedia env = DisplayGranted (S nv) ->
  encoder_available env = true ->
  let s := startRecording mic now env s0 in
  isRecording s = true /\ isPaused s = false /\
  mediaRecorderRef s = Some (length (recorders s0)) /\
  (exists stream, recorders s = recorders s0 ++
     [MkMediaRecorder stream (pick_mimeType (isTypeSupported env)) Recording]) /\
  timerRef s = Some (length (intervals s0)) /\
  intervals s = intervals s0 ++ [MkInterval true (isPaused s0)] /\
  (exists rest, tracks s = tracks s0 ++
     track_set_onended (Some (memoIsRecording s0)) (fresh_track VideoTrack) :: rest).
Proof.
  intros Hd He s. subst s. unfold startRecording. rewrite Hd, He. cbn [negb].
  destruct mic; [destruct (getUserMedia env) as [[|na]|]|];
    cbn -[alter]; rewrite <- ?app_assoc, <- ?app_comm_cons, !alter_first_new;
    repeat split; eexists; reflexivity.
Qed.

(** X28. When the browser ends the shared video track of a running
    recording (the user stops sharing), the [onended] handler calls the
    [stopRecording] that the memoised [startRecording] holds. If
    [startRecording] was last re-created while nothing was being recorded,
    as it is for a first recording after the mount, that [stopRecording]
    does nothing: the track has ended, and the hook goes on recording, with
    the encoder and the interval running. If it was last re-created during
    a recording (an earlier pause or resume), the recording is stopped as
    by the stop button. *)
Theorem device_stop_works_only_after_a_pause
    (s0 : Hook) (mic : bool) (now : Z) (env : Env) (nv : nat) :
  getDisplayMedia env = DisplayGranted (S nv) ->
  encoder_available env = true ->
  let s := startRecording mic now env s0 in
  let v := length (tracks s0) in
  let f := track_ended v s in
  is_live s v = true /\ is_live f v = false /\
  (memoIsRecording s0 = false ->
   isRecording f = true /\ recorders f = recorders s /\ intervals f = intervals s /\
   timerRef f = timerRef s /\
   (exists r, recorders f !! length (recorders s0) = Some r /\ rec_state r = Recording) /\
   (exists iv, timerRef f = Some (length (intervals s0)) /\
               intervals f !! length (intervals s0) = Some iv /\ iv_active iv = true)) /\
  (memoIsRecording s0 = true ->
   isRecording f = false /\ isPaused f = false /\ timerRef f = None /\
   (exists r, recorders f !! length (recorders s0) = Some r /\ rec_state r = Inactive) /\
   (exists iv, intervals f !! length (intervals s0) = Some iv /\ iv_active iv = false)).
Proof.
  intros Hd He s v f.
  destruct (startRecording_started mic now env s0 nv Hd He)
    as (Hr & Hp & Hm & [stream Hrec] & Ht & Hiv & [rest Htr]).
  fold s in Hr, Hp, Hm, Hrec, Ht, Hiv, Htr.
  assert (tracks s !! v
          = Some (track_set_onended (Some (memoIsRecording s0))
                    (fresh_track VideoTrack))) as Hv.
  { rewrite Htr. subst v. rewrite lookup_app_r by lia. by rewrite Nat.sub_diag. }
  assert (v < length (tracks s))%nat as Hlt by (by eapply lookup_lt_Some).
  subst f. unfold track_ended, is_live. rewrite Hv. cbn [onended track_set_onended].
  split; [done|].
  destruct (memoIsRecording s0) eqn:Hmemo.
  - unfold stopRecording_in, clear_timer. cbn. rewrite Hm. cbn. rewrite Ht. cbn.
    rewrite list_lookup_insert_eq by done.
    split; [done|]. split; [done|]. intros _.
    do 3 (split; [done|]).
    rewrite Hrec, Hiv, !alter_first_new.
    rewrite !lookup_app_r by lia. rewrite !Nat.sub_diag.
    split; eexists; (split; [reflexivity | done]).
  - rewrite stale_stop_is_noop. cbn.
    rewrite list_lookup_insert_eq by done.
    split; [done|]. split; [|done]. intros _.
    do 4 (split; [done|]).
    rewrite Hrec, Hiv, Ht.
    rewrite !lookup_app_r by lia. rewrite !Nat.sub_diag.
    split; [by eexists | by eexists].
Qed.

Lemma device_stop_works_only_after_a_pause_witness :
  let first := startRecording true 0 granting initial in
  let again :=
    startRecording true 9000 granting
      (run [Pause 1000; Resume 2000; Stop; RecorderStopped] first) in
  isRecording (track_ended 0 first) = true /\
  isRecording (track_ended 2 again) = false.
Proof.
  intros first again.
  destruct (device_stop_works_only_after_a_pause initial true 0 granting 0
              eq_refl eq_refl) as (_ & _ & H1 & _).
  destruct (device_stop_works_only_after_a_pause
              (run [Pause 1000; Resume 2000; Stop; RecorderStopped] first)
              true 9000 granting 0 eq_refl eq_refl) as (_ & _ & _ & H2).
  split; [apply (H1 eq_refl) | apply (H2 eq_refl)].
Defined.

End RecorderMore.

(* ===================================================================== *)
(** ** Properties of the recorder controls                                 *)
(* ===================================================================== *)

Section ControlsFacts.
Import Recorder RecorderControls.
Local Open Scope Z_scope.

Lemma videoBlob_startRecording mic now env (s : Hook) :
  videoBlob (startRecording mic now env s) = videoBlob s.
Proof.
  unfold startRecording, start_failed.
  destruct (getDisplayMedia env) as [[|nv]|m]; [| |reflexivity];
    (destruct mic; [destruct (getUserMedia env) as [[|na]|]|]);
    by destruct (encoder_available env).
Qed.

(** Only a reset takes the finished recording away. *)
Lemma videoBlob_kept (e : Event) (s : Hook) :
  not_reset e -> is_Some (videoBlob s) -> is_Some (videoBlob (handle e s)).
Proof.
  destruct e as [mic now env| |now|now| | |d| | |i now|t]; simpl; intros Hn Hs.
  - by rewrite videoBlob_startRecording.
  - unfold stopRecording, stopRecording_in, clear_timer.
    destruct (mediaRecorderRef s), (isRecording s); simpl; try done.
    by destruct (timerRef s).
  - unfold pauseRecording.
    destruct (mediaRecorderRef s) as [rid|]; [|done].
    destruct (isRecording s && negb (isPaused s)); [|done].
    by destruct (recorders s !! rid ≫= recorder_pause).
  - unfold resumeRecording.
    destruct (mediaRecorderRef s) as [rid|]; [|done].
    destruct (isRecording s && isPaused s); [|done].
    by destruct (recorders s !! rid ≫= recorder_resume).
  - contradiction.
  - unfold toggleMicrophone.
    destruct (isRecording s); [|done].
    destruct (audioTrackRef s) as [a|]; [|done]. by destruct (tracks s !! a).
  - unfold ondataavailable. destruct d as [d|]; [|done]. by case_bool_decide.
  - unfold onstop, release_stream. simpl. destruct (streamRef s); by eexists.
  - done.
  - unfold tick. destruct (intervals s !! i) as [iv|]; [|done].
    by destruct (iv_active iv && negb (iv_isPaused iv)).
  - unfold track_ended. destruct (tracks s !! t) as [tr|]; [|done].
    destruct (onended tr) as [b|]; [|done].
    unfold stopRecording_in, clear_timer. simpl.
    destruct (mediaRecorderRef s), b; simpl; try done.
    by destruct (timerRef s).
Qed.

Lemma notify_effect_notified c (b : Blob) (n : Notifier) :
  notifiedRef n = true -> notify_effect c (Some b) n = n.
Proof. unfold notify_effect. intros ->. by rewrite andb_false_r. Qed.

(** X10. Once a finished recording has been handed to the parent, every
    later recording made without a reset in between is kept from it: along
    any trace without a reset the recording blob is never cleared, so the
    effect never calls [onRecordingComplete] again. A reset re-arms the
    effect. *)
Theorem later_recordings_reach_the_parent_only_after_reset
    (hasCallback : bool) (evs : list Event) (s : Hook) (n : Notifier) :
  is_Some (videoBlob s) ->
  notifiedRef n = true ->
  Forall not_reset evs ->
  (observe hasCallback evs (s, n)).2 = n /\
  is_Some (videoBlob (observe hasCallback evs (s, n)).1) /\
  (step hasCallback Reset (observe hasCallback evs (s, n))).2
    = MkNotifier false (handed_over n).
Proof.
  intros Hs Hn Hev.
  assert ((observe hasCallback evs (s, n)).2 = n /\
          is_Some (videoBlob (observe hasCallback evs (s, n)).1)) as [H1 H2].
  { revert s Hs. induction Hev as [|e evs He Hev IH]; intros s Hs; [done|].
    unfold observe in *. simpl.
    pose proof (videoBlob_kept e s He Hs) as [b Hb].
    unfold step at 2 4. simpl. rewrite Hb, notify_effect_notified by done.
    apply IH. by rewrite Hb. }
  split; [done|]. split; [done|].
  unfold step. rewrite H1. simpl. done.
Qed.

Lemma later_recordings_reach_the_parent_only_after_reset_witness :
  let first := MkBlob [Byte.x01] "video/webm" in
  let s := setVideoBlob (Some first) initial in
  let second := [Start true 0 granting; DataAvailable (Some (MkBlob [Byte.x02] "video/webm"));
                 Stop; RecorderStopped] in
  videoBlob (observe true second (s, MkNotifier true [first])).1
    = Some (MkBlob [Byte.x02] "video/webm") /\
  handed_over (observe true second (s, MkNotifier true [first])).2 = [first].
Proof.
  intros first s second.
  destruct (later_recordings_reach_the_parent_only_after_reset true second s
              (MkNotifier true [first])) as (H1 & _ & _).
  - by eexists.
  - reflexivity.
  - repeat constructor.
  - split; [reflexivity | by rewrite H1].
Defined.

(** *** The elapsed-time display *)

Lemma seconds_field_check :
  forallb (fun n => String.eqb (padStart2 (toString (Z.of_nat n)))
                               (two_digits (Z.of_nat n))) (seq 0 100) = true.
Proof. vm_compute. reflexivity. Qed.

Lemma padStart2_two_digits (r : Z) :
  0 <= r < 100 -> padStart2 (toString r) = two_digits r.
Proof.
  intros Hr. pose proof seconds_field_check as H.
  rewrite forallb_forall in H. specialize (H (Z.to_nat r)).
  rewrite Z2Nat.id in H by lia. apply String.eqb_eq, H.
  apply in_seq. lia.
Qed.

(** X11. For a non-negative number of seconds the display is the minutes,
    padded to two characters at least, a colon, and the seconds within the
    minute as exactly two decimal digits; below one hundred minutes it is
    the five characters [MM:SS]. *)
Theorem formatTime_shows_minutes_and_seconds (seconds : Z) :
  0 <= seconds ->
  let m := seconds / 60 in
  let r := seconds mod 60 in
  formatTime seconds = padStart2 (toString m) +:+ ":" +:+ two_digits r /\
  (seconds < 6000 ->
   formatTime seconds = clock_face (m / 10) (m mod 10) (r / 10) (r mod 10)).
Proof.
  intros Hs m r.
  assert (formatTime seconds = padStart2 (toString m) +:+ ":" +:+ two_digits r) as H.
  { unfold formatTime. rewrite Z.rem_mod_nonneg by lia. fold m r.
    rewrite (padStart2_two_digits r); [done|]. subst r.
    pose proof (Z.mod_pos_bound seconds 60). lia. }
  split; [exact H|]. intros Hlt. rewrite H.
  rewrite (padStart2_two_digits m); [reflexivity|].
  subst m. split; [apply Z.div_pos; lia|].
  apply Z.div_lt_upper_bound; lia.
Qed.

Lemma formatTime_shows_minutes_and_seconds_witness :
  formatTime 754 = "12:34".
Proof.
  destruct (formatTime_shows_minutes_and_seconds 754) as [_ H]; [lia|].
  rewrite H by lia. reflexivity.
Defined.

End ControlsFacts.

(* ===================================================================== *)
(** ** Further properties of the trimmer                                   *)
(* ===================================================================== *)

Section TrimmerMore.
Import Trimmer.
Local Open Scope float_scope.

(** X12. The engine calls of one [trimVideo], in order, on every path.
    The load comes first when the engine was not loaded yet, and when it
    fails nothing else is called. Once loaded: when the blob cannot be
    fetched nothing is written; otherwise the input file is written; if that
    went through the stream copy is tried, and the re-encode over the same
    range is run only if the copy failed; the output is read only if one of
    the two succeeded. Every failure after the load ends with the deletion
    of the input and of the output file being requested; after a blob was
    made, the input file's deletion is requested, and the output file's only
    if that went through. *)
Theorem trimVideo_engine_calls
    (env : EngineEnv) (blob : Recorder.Blob) (start end_ : float) (e : Engine) :
  let r := trimVideo env blob start end_ e in
  let i := input_name env in
  let o := output_name env in
  let t := PrimFloat.sub end_ start in
  let cleanup := [DeleteFile i; DeleteFile o] in
  let read (rd : ReadRun) :=
    ReadFile o ::
    match rd with
    | ReadThrows _ | ReadGives [] _ => cleanup
    | ReadGives _ true => cleanup
    | ReadGives _ false => [DeleteFile i]
    end in
  calls r.1 =
    calls e ++
    (if isLoaded e then [] else [Load]) ++
    (if isLoaded e || load_ok env then
       match trim_run env with
       | FetchThrows _ => cleanup
       | WriteThrows _ => WriteFile i :: cleanup
       | Written x =>
         [WriteFile i; ExecCopy i o start t] ++
         match x with
         | CopyDone rd => read rd
         | ReencodeDone rd => ExecReencode i o start t :: read rd
         | ExecThrows _ => ExecReencode i o start t :: cleanup
         end
       end
     else []) /\
  isLoaded r.1 = isLoaded e || load_ok env /\
  (forall msg, r.2 = inl msg -> isLoaded r.1 = true ->
     exists before, calls r.1 = before ++ cleanup) /\
  (forall b, r.2 = inr b -> DeleteFile i ∈ calls r.1).
Proof.
  unfold trimVideo, loadFFmpeg, read_back, trim_failure, call, input_name, output_name.
  destruct (isLoaded e) eqn:Hl, (load_ok env),
    (trim_run env) as [m|m|[[m|[|x xs] [|]]|[m|[|x xs] [|]]|m]];
    cbn -[String.app]; rewrite ?Hl; cbn -[String.app];
    (split; [by rewrite <- ?app_assoc|]); (split; [done|]);
    (split; [intros msg Hmsg Hld; try discriminate;
             rewrite <- app_assoc; by eexists
            |intros b Hb; try discriminate; set_solver]).
Qed.

(** X13. [trimVideo] returns a blob exactly when the engine is or gets
    loaded, the copy or the re-encode succeeds and the output read back is
    not empty; the blob then holds that output as [video/webm], so it is
    never empty. *)
Theorem trimVideo_succeeds_iff
    (env : EngineEnv) (blob : Recorder.Blob) (start end_ : float) (e : Engine) :
  let r := trimVideo env blob start end_ e in
  ((exists b, r.2 = inr b) <->
   (isLoaded e || load_ok env) && (copy_ok env || reencode_ok env) = true /\
   output env <> []) /\
  (forall b, r.2 = inr b ->
     b = Recorder.MkBlob (output env) "video/webm" /\ (0 < Recorder.blob_size b)%nat).
Proof.
  unfold trimVideo, loadFFmpeg, read_back, trim_failure, call,
    copy_ok, reencode_ok, output.
  destruct (isLoaded e), (load_ok env),
    (trim_run env) as [m|m|[[m|[|x xs] [|]]|[m|[|x xs] [|]]|m]]; simpl;
    (split; [split; [intros [b Hb] | intros [Hc Ho]] | intros b Hb]);
    try discriminate; try done;
    try (by eexists);
    try (injection Hb as <-; split; [done | unfold Recorder.blob_size; simpl; lia]).
Qed.

(** X14. Started with both busy flags down, [handleTrim] ends with both
    down on every path (no blob, failed load, rejected range, failed or
    successful trim), and it never touches the source blob or its known
    duration. *)
Theorem handleTrim_leaves_no_busy_flag
    (env : EngineEnv) (start end_ : float) (c : Trimmer) :
  isTrimming c = false ->
  isLoadingFFmpeg c = false ->
  let c' := handleTrim env start end_ c in
  isTrimming c' = false /\ isLoadingFFmpeg c' = false /\
  videoBlob c' = videoBlob c /\ duration c' = duration c.
Proof.
  intros Ht Hl c'. subst c'. unfold handleTrim, validate_and_trim.
  destruct (videoBlob c) as [blob|] eqn:Hb; [|by rewrite Hb].
  destruct (ffmpegLoadedRef c).
  - destruct (validate start end_ (duration c)); simpl; [by rewrite Hb|].
    destruct (trimVideo env blob start end_ (engine c)) as [e [msg|b]]; simpl;
      by rewrite Hb.
  - simpl. destruct (loadFFmpeg env (engine c)) as [e [msg|[]]]; simpl;
      [by rewrite Hb|].
    destruct (validate start end_ (duration c)); simpl; [by rewrite Hb|].
    destruct (trimVideo env blob start end_ e) as [e' [msg|b]]; simpl;
      by rewrite Hb.
Qed.

Lemma handleTrim_leaves_no_busy_flag_witness :
  let c' := handleTrim quiet_engine 2 7 (ten_seconds false) in
  isTrimming c' = false /\ isLoadingFFmpeg c' = false.
Proof.
  intros c'.
  destruct (handleTrim_leaves_no_busy_flag quiet_engine 2 7 (ten_seconds false)
              eq_refl eq_refl) as (H1 & H2 & _).
  split; [exact H1 | exact H2].
Defined.

(** X15. Once the engine is loaded, a further [handleTrim] never loads it
    again and leaves it loaded, whatever the component's own loaded flag
    says. *)
Theorem loaded_engine_is_not_loaded_again
    (env : EngineEnv) (start end_ : float) (c : Trimmer) :
  isLoaded (engine c) = true ->
  let c' := handleTrim env start end_ c in
  loads (engine c') = loads (engine c) /\ isLoaded (engine c') = true.
Proof.
  intros Hl c'. subst c'.
  unfold handleTrim, validate_and_trim, trimVideo, loadFFmpeg, trim_failure, call,
    loads.
  destruct (videoBlob c) as [blob|]; [|done].
  destruct (ffmpegLoadedRef c); simpl; rewrite ?Hl; simpl;
    (destruct (validate start end_ (duration c)); simpl; [done|]);
    rewrite ?Hl; simpl; unfold read_back, trim_failure, call;
    destruct (trim_run env) as [m|m|[[m|[|x xs] [|]]|[m|[|x xs] [|]]|m]]; simpl;
    rewrite ?filter_app, ?length_app; simpl; (split; [lia | done]).
Qed.

Lemma loaded_engine_is_not_loaded_again_witness :
  let c := handleTrim quiet_engine 2 7 (ten_seconds false) in
  loads (engine c) = 1%nat /\
  loads (engine (handleTrim quiet_engine 1 3 c)) = 1%nat.
Proof.
  intros c.
  destruct (loaded_engine_is_not_loaded_again quiet_engine 1 3 c eq_refl) as [H _].
  split; [reflexivity | by rewrite H].
Defined.

(** X16. With a blob shown, an accepted range, an engine that is or gets
    loaded, a copy or re-encode that succeeds and a non-empty output, the
    trimmed blob is that output as [video/webm]; it becomes the preview, is
    handed to the parent once, and no error is shown. *)
Theorem handleTrim_hands_over_the_trimmed_blob
    (env : EngineEnv) (start end_ : float) (c : Trimmer) (blob : Recorder.Blob) :
  videoBlob c = Some blob ->
  validate start end_ (duration c) = None ->
  isLoaded (engine c) || load_ok env = true ->
  copy_ok env || reencode_ok env = true ->
  output env <> [] ->
  let c' := handleTrim env start end_ c in
  let trimmed := Recorder.MkBlob (output env) "video/webm" in
  trimmedVideoUrl c' = Some trimmed /\
  onTrimmed c' = onTrimmed c ++ [trimmed] /\
  error c' = None /\
  ffmpegLoadedRef c' = true.
Proof.
  intros Hb Hv Hl Hc Ho c'. subst c'. unfold handleTrim, validate_and_trim.
  rewrite Hb.
  unfold trimVideo, loadFFmpeg, read_back, trim_failure, call,
    copy_ok, reencode_ok, output in *.
  destruct (ffmpegLoadedRef c) eqn:Hf, (isLoaded (engine c)) eqn:Hi, (load_ok env),
    (trim_run env) as [m|m|[[m|[|x xs] [|]]|[m|[|x xs] [|]]|m]];
    simpl in *; try done; rewrite ?Hv; simpl; rewrite ?Hi; simpl;
    rewrite ?Hf; done.
Qed.

Lemma handleTrim_hands_over_the_trimmed_blob_witness :
  let c' := handleTrim quiet_engine 2 7 (ten_seconds true) in
  trimmedVideoUrl c' = Some (Recorder.MkBlob [Byte.x1a] "video/webm") /\
  error c' = None.
Proof.
  intros c'.
  destruct (handleTrim_hands_over_the_trimmed_blob quiet_engine 2 7 (ten_seconds true)
              (Recorder.MkBlob [Byte.x1a; Byte.x45] "video/webm")
              eq_refl eq_refl eq_refl eq_refl) as (H1 & _ & H3 & _).
  - discriminate.
  - split; [exact H1 | exact H3].
Defined.

End TrimmerMore.

(* ===================================================================== *)
(** ** Further properties of the watch analytics store                     *)
(* ===================================================================== *)

Section DbMore.
Import Db.
Local Open Scope Z_scope.

Lemma incrementViewCount_total fuel now videoId (db : gmap string VideoRecord) :
  storable videoId db ->
  incrementViewCount (S fuel) now videoId db =
  Some (<[videoId := let r := record_or_new now videoId db in
                     MkVideoRecord (id r) (createdAt r) (add_one (viewCount r))
                       (watchCompletions r) (watchProgress r)]> db).
Proof.
  unfold record_or_new. intros Hs. cbn [incrementViewCount]. unfold member at 1.
  destruct (db !! videoId) as [r|] eqn:Hr; [done|].
  destruct Hs as [Hs|Hs]; [done|]. rewrite Hs.
  unfold createVideoRecord. cbn [fst].
  rewrite js_set_insert by (by apply not_inherited_not_proto).
  destruct fuel; cbn [incrementViewCount]; unfold member;
    rewrite lookup_insert_eq; by rewrite insert_insert_eq.
Qed.

Lemma storable_insert videoId (r : VideoRecord) (db : gmap string VideoRecord) :
  storable videoId (<[videoId := r]> db).
Proof. left. by rewrite lookup_insert_eq. Qed.

(** X17. For a video that has a record, or whose id is not the name of a
    member of [Object.prototype], a view request succeeds, creating the
    record when the video has none; below 2^53 it raises the video's view
    count by exactly one; it keeps its completions and progress entries and
    leaves every other video's record alone. Under the name of such a
    member that has no record ([constructor], [toString], ...) nothing is
    counted: the store stays as it is. *)
Theorem incrementViewCount_counts_one_view
    (fuel : nat) (now videoId : string) (db : gmap string VideoRecord) :
  (storable videoId db ->
   exists db',
     incrementViewCount (S fuel) now videoId db = Some db' /\
     views videoId db' = add_one (views videoId db) /\
     (0 <= views videoId db < 2 ^ 53 -> views videoId db' = views videoId db + 1) /\
     completions videoId db' = completions videoId db /\
     (watchProgress <$> db' !! videoId)
       = Some (default ∅ (watchProgress <$> db !! videoId)) /\
     (db !! videoId = None -> db' !! videoId = Some (MkVideoRecord videoId now 1 0 ∅)) /\
     (forall other, other <> videoId -> db' !! other = db !! other)) /\
  (db !! videoId = None -> inherited videoId = true ->
   incrementViewCount fuel now videoId db = Some db).
Proof.
  split.
  - intros Hs. eexists. split; [by apply incrementViewCount_total|].
    unfold views, completions, record_or_new. rewrite !lookup_insert_eq. simpl.
    destruct (db !! videoId) as [r|] eqn:Hr; simpl; repeat split; try done;
      try (intros Hb; apply add_one_exact; lia);
      intros other Hne; by rewrite lookup_insert_ne.
  - intros Hr Hi. destruct fuel; simpl; unfold member; by rewrite Hr, Hi.
Qed.

Lemma incrementViewCount_counts_one_view_witness :
  exists db',
    incrementViewCount 1 "2024-01-01T00:00:00.000Z" "3c3c" ∅ = Some db' /\
    views "3c3c" db' = 1 /\
    incrementViewCount 1 "2024-01-01T00:00:00.000Z" "constructor" ∅ = Some ∅.
Proof.
  destruct (incrementViewCount_counts_one_view 0 "2024-01-01T00:00:00.000Z" "3c3c" ∅)
    as [H _].
  destruct H as (db' & H1 & _ & H2 & _); [by right|].
  exists db'. split; [exact H1|]. split; [by apply H2 | reflexivity].
Defined.

(** X18. For such a video, [k] view requests in a row raise the view count
    by [k], as long as it stays within 2^53. *)
Theorem view_count_is_the_number_of_views
    (k : nat) (now videoId : string) (db : gmap string VideoRecord) :
  storable videoId db ->
  0 <= views videoId db ->
  views videoId db + Z.of_nat k <= 2 ^ 53 ->
  exists db',
    view_times k now videoId db = Some db' /\
    views videoId db' = views videoId db + Z.of_nat k /\
    completions videoId db' = completions videoId db.
Proof.
  revert db. induction k as [|k IH]; intros db Hs H0 Hk.
  - exists db. split; [done|]. split; [lia | done].
  - cbn [view_times]. rewrite incrementViewCount_total by done.
    cbn [mbind option_bind].
    set (db1 := <[videoId := _]> db).
    assert (views videoId db1 = views videoId db + 1) as Hv.
    { subst db1. clear IH. unfold views, record_or_new in *.
      rewrite lookup_insert_eq. simpl.
      destruct (db !! videoId); simpl; apply add_one_exact; lia. }
    assert (completions videoId db1 = completions videoId db) as Hc.
    { subst db1. unfold completions, record_or_new. rewrite lookup_insert_eq.
      by destruct (db !! videoId). }
    destruct (IH db1) as (db' & H1 & H2 & H3);
      [apply storable_insert | lia | lia |].
    exists db'. split; [exact H1|]. rewrite H2, H3, Hv, Hc. split; [lia | done].
Qed.

Lemma view_count_is_the_number_of_views_witness :
  exists db',
    view_times 3 "2024-01-01T00:00:00.000Z" "3c3c" ∅ = Some db' /\
    views "3c3c" db' = 3.
Proof.
  destruct (view_count_is_the_number_of_views 3 "2024-01-01T00:00:00.000Z" "3c3c" ∅)
    as (db' & H1 & H2 & _).
  - by right.
  - done.
  - done.
  - exists db'. split; [exact H1 | exact H2].
Defined.

(** X19. For a video that has a record, or whose id is not the name of a
    member of [Object.prototype], a progress update succeeds and touches
    one session of one video: afterwards the session's entry is the
    progress just reported, as JSON gives it back (the last report wins;
    under the session id [__proto__] no entry is made), the view count is
    as before, every other entry of the video except the session's
    completion flag is as before, and every other video's record is
    untouched. Under the name of such a member that has no record the
    update throws, and nothing is written. *)
Theorem updateWatchProgress_touches_one_session
    (fuel : nat) (now videoId sessionId : string) (progress : float)
    (db : gmap string VideoRecord) :
  (storable videoId db ->
   exists db' r',
     updateWatchProgress (S fuel) now videoId sessionId progress db
       = Some (Returned db') /\
     db' !! videoId = Some r' /\
     (sessionId <> "__proto__" ->
      watchProgress r' !! sessionId = Some (through_json (JsNumber progress))) /\
     (sessionId = "__proto__" ->
      watchProgress (record_or_new now videoId db) !! sessionId = None ->
      watchProgress r' !! sessionId = None) /\
     (forall key, key <> sessionId -> key <> completed_key sessionId ->
        watchProgress r' !! key
          = watchProgress (record_or_new now videoId db) !! key) /\
     views videoId db' = views videoId db /\
     (forall other, other <> videoId -> db' !! other = db !! other)) /\
  (db !! videoId = None -> inherited videoId = true ->
   updateWatchProgress fuel now videoId sessionId progress db = Some Thrown).
Proof.
  split; [|by apply updateWatchProgress_inherited].
  intros Hs. eexists _, _. split; [by apply updateWatchProgress_total|].
  split; [apply lookup_insert_eq|].
  pose proof (completed_key_fresh sessionId) as Hfresh.
  set (r0 := record_or_new now videoId db).
  assert (forall r : VideoRecord,
            views videoId (<[videoId := r]> db) = viewCount r) as Hviews
    by (intros r; unfold views; by rewrite lookup_insert_eq).
  assert (viewCount r0 = views videoId db) as Hv0
    by (subst r0; unfold record_or_new, views; by destruct (db !! videoId)).
  unfold record_progress.
  destruct (PrimFloat.leb completion_threshold progress &&
            falsy_at (js_set sessionId (through_json (JsNumber progress))
                        (watchProgress r0))
                     (completed_key sessionId)); cbn [watchProgress];
    rewrite Hviews; cbn [viewCount];
    (split; [|split; [|split; [|split; [done|] ] ] ]);
    try (intros other Hne; by rewrite lookup_insert_ne);
    try (intros key H1 H2; by rewrite ?js_set_lookup_ne by done).
  - intros Hne. rewrite js_set_lookup_ne by done.
    rewrite js_set_insert by done. apply lookup_insert_eq.
  - intros -> Hnone. rewrite js_set_lookup_ne by done.
    unfold js_set. by rewrite Hnone.
  - intros Hne. rewrite js_set_insert by done. apply lookup_insert_eq.
  - intros -> Hnone. unfold js_set. by rewrite Hnone.
Qed.

Lemma updateWatchProgress_touches_one_session_witness :
  exists db' r',
    updateWatchProgress 1 "2024-01-01T00:00:00.000Z" "3c3c" "s" 0x1p-1%float ∅
      = Some (Returned db') /\
    db' !! "3c3c" = Some r' /\
    watchProgress r' !! "s" = Some (JsNumber 0x1p-1%float) /\
    updateWatchProgress 1 "2024-01-01T00:00:00.000Z" "toString" "s" 0x1p-1%float ∅
      = Some Thrown.
Proof.
  destruct (updateWatchProgress_touches_one_session 0 "2024-01-01T00:00:00.000Z"
              "3c3c" "s" 0x1p-1%float ∅) as [H _].
  destruct H as (db' & r' & H1 & H2 & H3 & _); [by right|].
  exists db', r'. split; [exact H1|]. split; [exact H2|].
  split; [by apply H3 | reflexivity].
Defined.

(** X20. For such a video a progress update never lowers
    [watchCompletions] and raises it by one at most; a report below 0.95
    leaves it as it is, and so does any report for a session already
    flagged as completed. *)
Theorem updateWatchProgress_counts_at_most_one
    (fuel : nat) (now videoId sessionId : string) (progress : float)
    (db : gmap string VideoRecord) :
  storable videoId db ->
  exists db',
    updateWatchProgress (S fuel) now videoId sessionId progress db
      = Some (Returned db') /\
    completions videoId db <= completions videoId db' <= completions videoId db + 1 /\
    (PrimFloat.leb completion_threshold progress = false ->
     completions videoId db' = completions videoId db) /\
    (not_completed videoId sessionId db = false ->
     completions videoId db' = completions videoId db).
Proof.
  intros Hs. eexists. split; [by apply updateWatchProgress_total|].
  assert (forall r : VideoRecord,
            completions videoId (<[videoId := r]> db) = watchCompletions r) as Hc
    by (intros r; unfold completions; by rewrite lookup_insert_eq).
  rewrite Hc.
  rewrite <- (completions_record_or_new now videoId db).
  rewrite <- (not_completed_record_or_new now videoId sessionId db).
  set (r0 := record_or_new now videoId db).
  pose proof (add_one_bounds (watchCompletions r0)) as Hb.
  unfold record_progress.
  rewrite falsy_at_js_set_ne by apply completed_key_fresh.
  destruct (PrimFloat.leb completion_threshold progress),
    (falsy_at (watchProgress r0) (completed_key sessionId));
    cbn [andb watchCompletions]; repeat split; try done; lia.
Qed.

Lemma updateWatchProgress_counts_at_most_one_witness :
  exists db',
    updateWatchProgress 1 "2024-01-01T00:00:00.000Z" "3c3c" "s" 0x1p-1%float ∅
      = Some (Returned db') /\
    completions "3c3c" db' = 0.
Proof.
  destruct (updateWatchProgress_counts_at_most_one 0 "2024-01-01T00:00:00.000Z"
              "3c3c" "s" 0x1p-1%float ∅) as (db' & H1 & _ & H2 & _); [by right|].
  exists db'. split; [exact H1 | by apply H2].
Defined.

(** X21. The completion flag of a session lives in the same map as the
    progress entries, under the session's id followed by [_completed]. For
    a video that has a record, or whose id is not the name of a member of
    [Object.prototype], a report of progress 0 by a session that has that
    very id overwrites the flag with 0, so the next report at or above 0.95
    of the first session is counted a second time. *)
Theorem colliding_session_id_recounts_a_completion
    (f1 f2 f3 : nat) (now videoId sessionId : string) (progress : float)
    (db : gmap string VideoRecord) :
  storable videoId db ->
  PrimFloat.leb completion_threshold progress = true ->
  not_completed videoId sessionId db = true ->
  0 <= completions videoId db < 2 ^ 53 - 1 ->
  exists db1 db2 db3,
    updateWatchProgress (S f1) now videoId sessionId progress db
      = Some (Returned db1) /\
    updateWatchProgress f2 now videoId (completed_key sessionId) 0%float db1
      = Some (Returned db2) /\
    updateWatchProgress f3 now videoId sessionId progress db2
      = Some (Returned db3) /\
    completions videoId db1 = completions videoId db + 1 /\
    completions videoId db2 = completions videoId db + 1 /\
    completions videoId db3 = completions videoId db + 2.
Proof.
  intros Hs Hp Hn Hb.
  pose proof (completed_key_fresh sessionId) as Hfresh.
  pose proof (completed_key_fresh (completed_key sessionId)) as Hfresh2.
  set (r0 := record_or_new now videoId db).
  set (r1 := record_progress sessionId progress r0).
  set (r2 := record_progress (completed_key sessionId) 0%float r1).
  set (r3 := record_progress sessionId progress r2).
  exists (<[videoId := r1]> db), (<[videoId := r2]> (<[videoId := r1]> db)),
         (<[videoId := r3]> (<[videoId := r2]> (<[videoId := r1]> db))).
  split; [by apply updateWatchProgress_total|].
  split; [apply updateWatchProgress_existing; by rewrite lookup_insert_eq|].
  split; [apply updateWatchProgress_existing; by rewrite lookup_insert_eq|].
  assert (falsy_at (watchProgress r0) (completed_key sessionId) = true) as H0
    by (subst r0; by rewrite not_completed_record_or_new).
  assert (completions videoId db = watchCompletions r0) as Hc0
    by (subst r0; by rewrite completions_record_or_new).
  assert (watchCompletions r1 = watchCompletions r0 + 1) as Hc1.
  { subst r1. rewrite record_progress_counts by done. apply add_one_exact. lia. }
  assert (watchCompletions r2 = watchCompletions r1 /\
          falsy_at (watchProgress r2) (completed_key sessionId) = true) as [Hc2 H2].
  { subst r2. unfold record_progress.
    change (PrimFloat.leb completion_threshold 0) with false. cbn [andb].
    split; [done|]. cbn [watchProgress].
    rewrite js_set_insert
      by (apply not_inherited_not_proto, completed_key_not_inherited).
    unfold falsy_at. by rewrite lookup_insert_eq. }
  assert (watchCompletions r3 = watchCompletions r2 + 1) as Hc3.
  { subst r3. rewrite record_progress_counts by done. apply add_one_exact. lia. }
  unfold completions at 1 3 5. rewrite !lookup_insert_eq. lia.
Qed.

Lemma colliding_session_id_recounts_a_completion_witness :
  exists db1 db2 db3,
    updateWatchProgress 1 "t" "video" "s" completion_threshold ∅ = Some (Returned db1) /\
    updateWatchProgress 0 "t" "video" "s_completed" 0%float db1 = Some (Returned db2) /\
    updateWatchProgress 0 "t" "video" "s" completion_threshold db2 = Some (Returned db3) /\
    completions "video" db3 = 2.
Proof.
  destruct (colliding_session_id_recounts_a_completion 0 0 0 "t" "video" "s"
              completion_threshold ∅)
    as (db1 & db2 & db3 & H1 & H2 & H3 & _ & _ & H6);
    [by right | reflexivity | reflexivity | done |].
  exists db1, db2, db3. repeat split; done.
Defined.

End DbMore.

(* ===================================================================== *)
(** ** Properties of uploading and storing                                 *)
(* ===================================================================== *)

Section UploadFacts.
Import Storage Upload.

Lemma all_chars_app (P : ascii -> bool) (a b : string) :
  all_chars P (a +:+ b) = all_chars P a && all_chars P b.
Proof.
  induction a as [|c a IH]; [done|]. rewrite app_String. simpl.
  by rewrite IH, andb_assoc.
Qed.

Lemma all_chars_impl (P Q : ascii -> bool) (s : string) :
  (forall c, P c = true -> Q c = true) ->
  all_chars P s = true -> all_chars Q s = true.
Proof.
  intros HPQ. induction s as [|c s IH]; [done|]. simpl.
  intros [Hc Hs]%andb_true_iff. by rewrite (HPQ c Hc), IH.
Qed.

Lemma split_slash_without_slash (s : string) :
  all_chars (fun c => negb (Ascii.eqb c slash)) s = true -> split_slash s = [s].
Proof.
  induction s as [|c s IH]; [done|]. simpl.
  intros [Hc Hs]%andb_true_iff. apply negb_true_iff in Hc. rewrite Hc.
  by rewrite IH.
Qed.

Lemma hex_digit_is_hex (n : N) : is_hex (hex_digit n) = true.
Proof.
  unfold hex_digit. destruct n as [|p]; [done|].
  do 4 (destruct p as [p|p|]; try done).
Qed.

Lemma is_hex_not_slash (c : ascii) : is_hex c = true -> negb (Ascii.eqb c slash) = true.
Proof.
  destruct (Ascii.eqb c slash) eqn:E; [|done].
  apply Ascii.eqb_eq in E as ->. done.
Qed.

Lemma hex_all_hex (bytes : list Byte.byte) : all_chars is_hex (hex bytes) = true.
Proof.
  induction bytes as [|b bytes IH]; [done|]. simpl.
  by rewrite !hex_digit_is_hex, IH.
Qed.

Lemma hex_length (bytes : list Byte.byte) :
  String.length (hex bytes) = 2 * length bytes.
Proof. induction bytes as [|b bytes IH]; [done|]. simpl. rewrite IH. lia. Qed.

Lemma length_app_string (a b : string) :
  String.length (a +:+ b) = String.length a + String.length b.
Proof. induction a as [|c a IH]; [done|]. rewrite app_String. simpl. by rewrite IH. Qed.

Lemma ends_with_slash_suffix (a : string) (c : ascii) (b : string) :
  ends_with_slash (a +:+ String c b) = ends_with_slash (String c b).
Proof. apply ends_with_slash_app. Qed.

(** A file name made of hexadecimal digits and [.webm] is a plain name. *)
Lemma hex_file_name_plain (id : string) :
  all_chars is_hex id = true ->
  plain_name (id +:+ ".webm") /\ ends_with_slash (id +:+ ".webm") = false.
Proof.
  intros Hid.
  assert (5 <= String.length (id +:+ ".webm")) as Hlen
    by (rewrite length_app_string; simpl; lia).
  split; [repeat split|].
  - intros E. rewrite E in Hlen. simpl in Hlen. lia.
  - intros E. rewrite E in Hlen. simpl in Hlen. lia.
  - intros E. rewrite E in Hlen. simpl in Hlen. lia.
  - apply split_slash_without_slash. rewrite all_chars_app.
    rewrite (all_chars_impl is_hex _ id is_hex_not_slash Hid). done.
  - change ".webm" with (String "."%char "webm"). by rewrite ends_with_slash_suffix.
Qed.

Lemma absolute_dir_snoc (ds : list string) (d x : string) :
  absolute_dir ((ds ++ [d]) ++ [x]) = absolute_dir (ds ++ [d]) +:+ "/" +:+ x.
Proof.
  unfold absolute_dir. rewrite (join_slash_snoc (ds ++ [d])).
  destruct (ds ++ [d]) eqn:E; [by destruct ds|].
  by rewrite string_app_assoc.
Qed.

Lemma unhex_hex_byte (b : Byte.byte) :
  hex_value (hex_digit (Byte.to_N b / 16)) = Some (Byte.to_N b / 16)%N /\
  hex_value (hex_digit (Byte.to_N b mod 16)) = Some (Byte.to_N b mod 16)%N /\
  Byte.of_N (16 * (Byte.to_N b / 16) + Byte.to_N b mod 16) = Some b.
Proof. destruct b; repeat split; reflexivity. Qed.

(** The file of an id made of hexadecimal digits, for any working directory. *)
Lemma hex_video_path (dirs : list string) (id : string) :
  Forall plain_name dirs ->
  all_chars is_hex id = true ->
  getVideoPath (absolute_dir dirs) id
    = UPLOADS_DIR (absolute_dir dirs) +:+ "/" +:+ id +:+ ".webm".
Proof.
  intros Hds Hhex.
  destruct (hex_file_name_plain _ Hhex) as [Hplain Hend].
  unfold getVideoPath. rewrite UPLOADS_DIR_absolute by done.
  destruct (id +:+ ".webm") as [|c x] eqn:Hn; [by destruct Hplain|].
  rewrite (path_join_absolute (dirs ++ ["uploads"]) c x (dirs ++ ["uploads"]) c x).
  - apply absolute_dir_snoc.
  - apply Forall_app. split; [done|]. constructor; [apply plain_uploads | constructor].
  - done.
  - destruct Hplain as (H1 & H2 & H3 & Hsplit). rewrite Hsplit.
    cbn [normalize_segments].
    apply String.eqb_neq in H1, H2, H3. rewrite H1, H2, H3.
    cbn [orb rev]. by rewrite rev_involutive.
Qed.

Lemma string_app_inv_head (a b c : string) : a +:+ b = a +:+ c -> b = c.
Proof.
  induction a as [|x a IH]; [done|]. rewrite !app_String. intros E.
  injection E as E. by apply IH.
Qed.

Lemma string_app_inv_tail (a b c : string) : a +:+ c = b +:+ c -> a = b.
Proof.
  revert b. induction a as [|x a IH]; intros [|y b] E.
  - done.
  - apply (f_equal String.length) in E.
    rewrite !length_app_string in E. simpl in E. lia.
  - apply (f_equal String.length) in E.
    rewrite !length_app_string in E. simpl in E. lia.
  - rewrite !app_String in E. injection E as -> E. f_equal. by apply IH.
Qed.

(** Two ids of hexadecimal digits have the same file only if they are equal. *)
Lemma hex_video_path_inj (dirs : list string) (id1 id2 : string) :
  Forall plain_name dirs ->
  all_chars is_hex id1 = true -> all_chars is_hex id2 = true ->
  getVideoPath (absolute_dir dirs) id1 = getVideoPath (absolute_dir dirs) id2 ->
  id1 = id2.
Proof.
  intros Hds H1 H2. rewrite !hex_video_path by done.
  intros E%string_app_inv_head%string_app_inv_head. by apply string_app_inv_tail in E.
Qed.

Lemma unhex_hex (r : list Byte.byte) : unhex (hex r) = Some r.
Proof.
  induction r as [|b r IH]; [done|]. simpl.
  destruct (unhex_hex_byte b) as (-> & -> & ->). by rewrite IH.
Qed.

Lemma hex_inj (r1 r2 : list Byte.byte) : hex r1 = hex r2 -> r1 = r2.
Proof. intros E. apply (f_equal unhex) in E. rewrite !unhex_hex in E. by injection E. Qed.

(** X22. An id made by [generateVideoId] has two lower-case hexadecimal
    digits per random byte, and for every working directory its file is
    [<id>.webm] directly in the uploads directory: such an id cannot leave
    the uploads directory. *)
Theorem generated_id_stays_in_uploads (dirs : list string) (random : list Byte.byte) :
  Forall plain_name dirs ->
  let cwd := absolute_dir dirs in
  let videoId := generateVideoId random in
  String.length videoId = 2 * length random /\
  all_chars is_hex videoId = true /\
  getVideoPath cwd videoId = UPLOADS_DIR cwd +:+ "/" +:+ videoId +:+ ".webm" /\
  inside_uploads cwd (getVideoPath cwd videoId) = true.
Proof.
  intros Hds cwd videoId. subst cwd videoId. unfold generateVideoId.
  pose proof (hex_all_hex random) as Hhex.
  destruct (hex_file_name_plain _ Hhex) as [Hplain Hend].
  split; [apply hex_length|]. split; [done|].
  split; [by apply hex_video_path | by apply plain_id_inside_uploads].
Qed.

Lemma generated_id_stays_in_uploads_witness :
  getVideoPath "/srv/app" (generateVideoId [Byte.x0a; Byte.xf3])
    = "/srv/app/uploads/0af3.webm".
Proof.
  destruct (generated_id_stays_in_uploads ["srv"; "app"] [Byte.x0a; Byte.xf3])
    as (_ & _ & H & _).
  - repeat constructor; done.
  - exact H.
Defined.

(** X23. The hexadecimal id determines the random bytes it was made from:
    decoding it gives them back, so two ids are equal only if the random
    bytes were. *)
Theorem generated_ids_differ_when_random_bytes_differ (r1 r2 : list Byte.byte) :
  unhex (generateVideoId r1) = Some r1 /\
  (generateVideoId r1 = generateVideoId r2 -> r1 = r2).
Proof. unfold generateVideoId. split; [apply unhex_hex | apply hex_inj]. Qed.

(** A generated id is never [__proto__]: the store takes its record. *)
Lemma hex_not_proto (r : list Byte.byte) : generateVideoId r <> "__proto__".
Proof.
  unfold generateVideoId. intros E.
  pose proof (hex_all_hex r) as H. rewrite E in H. by vm_compute in H.
Qed.

Lemma POST_file (cwd : string) (env : UploadEnv) (type : string)
    (content : list Byte.byte) (files : Files) (db : gmap string Db.VideoRecord) :
  includes "webm" type || includes "video" type = true ->
  write_ok env = true ->
  POST cwd env (FileEntry type content) files db
    = (Uploaded (generateVideoId (random env))
         (origin env +:+ "/video/" +:+ generateVideoId (random env))
         "Video uploaded successfully",
       <[getVideoPath cwd (generateVideoId (random env)) := content]> files,
       <[generateVideoId (random env) :=
           Db.MkVideoRecord (generateVideoId (random env)) (now env) 0 0 ∅]> db).
Proof.
  intros Htype Hw. unfold POST, saveVideo, Db.createVideoRecord. rewrite Hw.
  rewrite js_set_insert by apply hex_not_proto.
  destruct (includes "webm" type), (includes "video" type); done.
Qed.

(** What a request changes at most: one file and one record, both of the
    generated id. *)
Lemma POST_frame (cwd : string) (env : UploadEnv) (video : FormEntry)
    (files : Files) (db : gmap string Db.VideoRecord) :
  let out := POST cwd env video files db in
  (out.1.2 = files \/
   exists content,
     out.1.2 = <[getVideoPath cwd (generateVideoId (random env)) := content]> files) /\
  (out.2 = db \/
   exists record, out.2 = <[generateVideoId (random env) := record]> db).
Proof.
  unfold POST, saveVideo.
  destruct video as [|[|c v]|type content]; simpl; try (split; by left).
  destruct (negb (includes "webm" type) && negb (includes "video" type));
    [split; by left|].
  destruct (write_ok env); simpl; [|split; by left].
  unfold Db.createVideoRecord. rewrite js_set_insert by apply hex_not_proto.
  split; right; eauto.
Qed.

(** X24. An accepted upload can be fetched back: when the form field is a
    file whose type contains [webm] or [video] and the file is written, the
    answer carries the generated id and the share link [origin/video/id],
    [GET /api/video/id] then serves exactly the uploaded bytes with their
    length, and the database holds a fresh record for the id with no views
    and no completions. *)
Theorem uploaded_video_is_served (cwd : string) (env : UploadEnv) (type : string)
    (content : list Byte.byte) (files : Files) (db : gmap string Db.VideoRecord) :
  length (random env) = 16 ->
  includes "webm" type || includes "video" type = true ->
  write_ok env = true ->
  let videoId := generateVideoId (random env) in
  exists files' db',
    POST cwd env (FileEntry type content) files db
      = (Uploaded videoId (origin env +:+ "/video/" +:+ videoId)
           "Video uploaded successfully", files', db') /\
    String.length videoId = 32 /\
    GET cwd (read files') videoId
      = VideoFile content "video/webm" (length content)
          "public, max-age=31536000, immutable" /\
    Db.getVideoRecord videoId db' = Some (Db.MkVideoRecord videoId (now env) 0 0 ∅).
Proof.
  intros Hlen Htype Hw videoId. subst videoId.
  do 2 eexists. split; [by apply POST_file|].
  assert (String.length (generateVideoId (random env)) = 32) as Hl
    by (unfold generateVideoId; rewrite hex_length, Hlen; done).
  split; [done|]. split.
  - unfold GET, videoExists, read, Files in *.
    destruct (generateVideoId (random env)) as [|c id] eqn:E; [done|].
    cbn [String.eqb]. rewrite lookup_insert_eq.
    rewrite bool_decide_eq_true_2 by eauto. done.
  - unfold Db.getVideoRecord. by rewrite lookup_insert_eq.
Qed.

Lemma uploaded_video_is_served_witness :
  let env := MkUploadEnv (replicate 16 Byte.x3c) "2024-01-01T00:00:00.000Z" true
               "http://localhost:3000" in
  exists files' db',
    POST "/srv/app" env (FileEntry "video/webm" [Byte.x1a; Byte.x45]) ∅ ∅
      = (Uploaded "3c3c3c3c3c3c3c3c3c3c3c3c3c3c3c3c"
           "http://localhost:3000/video/3c3c3c3c3c3c3c3c3c3c3c3c3c3c3c3c"
           "Video uploaded successfully", files', db') /\
    GET "/srv/app" (read files') "3c3c3c3c3c3c3c3c3c3c3c3c3c3c3c3c"
      = VideoFile [Byte.x1a; Byte.x45] "video/webm" 2
          "public, max-age=31536000, immutable".
Proof.
  intros env.
  destruct (uploaded_video_is_served "/srv/app" env "video/webm"
              [Byte.x1a; Byte.x45] ∅ ∅) as (files' & db' & H1 & _ & H2 & _);
    [reflexivity..|].
  exists files', db'. split; [exact H1 | exact H2].
Defined.

(** X25. An upload leaves every other video alone: whatever the request and
    its outcome, a video whose id was generated from other random bytes is
    served as before and keeps its database record. *)
Theorem upload_keeps_other_videos (dirs : list string) (env : UploadEnv)
    (video : FormEntry) (files : Files) (db : gmap string Db.VideoRecord)
    (other : list Byte.byte) :
  Forall plain_name dirs ->
  other <> random env ->
  let cwd := absolute_dir dirs in
  let out := POST cwd env video files db in
  GET cwd (read out.1.2) (generateVideoId other)
    = GET cwd (read files) (generateVideoId other) /\
  Db.getVideoRecord (generateVideoId other) out.2
    = Db.getVideoRecord (generateVideoId other) db.
Proof.
  intros Hds Hne cwd out. subst cwd out.
  destruct (POST_frame (absolute_dir dirs) env video files db) as [Hf Hd].
  assert (generateVideoId (random env) <> generateVideoId other) as Hid
    by (intros E%hex_inj; done).
  split.
  - destruct Hf as [-> | [content ->]]; [done|].
    unfold GET, videoExists, read, Files in *. rewrite lookup_insert_ne; [done|].
    intros E. apply Hid. eapply hex_video_path_inj; eauto using hex_all_hex.
  - destruct Hd as [-> | [record ->]]; [done|].
    unfold Db.getVideoRecord. by rewrite lookup_insert_ne.
Qed.

Lemma upload_keeps_other_videos_witness :
  let env := MkUploadEnv [Byte.x3c] "2024-01-01T00:00:00.000Z" true "http://h" in
  let files : Files := {[ "/srv/app/uploads/0af3.webm" := [Byte.x07] ]} in
  GET "/srv/app"
      (read (POST "/srv/app" env (FileEntry "video/webm" [Byte.x1a]) files ∅).1.2)
      (generateVideoId [Byte.x0a; Byte.xf3])
    = VideoFile [Byte.x07] "video/webm" 1 "public, max-age=31536000, immutable".
Proof.
  intros env files.
  destruct (upload_keeps_other_videos ["srv"; "app"] env
              (FileEntry "video/webm" [Byte.x1a]) files ∅ [Byte.x0a; Byte.xf3])
    as [H _].
  - repeat constructor; done.
  - done.
  - etrans; [exact H|]. reflexivity.
Defined.

(** X26. A request that fails validation stores nothing: when the form has
    no [video] field, or the field is text, or it is a file whose type
    contains neither [webm] nor [video], the answer is an error (400, or 500
    for a non-empty text field, whose missing [type] makes the type test
    throw) and neither the files nor the database change, whatever the
    environment. *)
Theorem rejected_upload_stores_nothing (cwd : string) (env : UploadEnv)
    (video : FormEntry) (files : Files) (db : gmap string Db.VideoRecord) :
  (forall type content, video = FileEntry type content ->
     includes "webm" type = false /\ includes "video" type = false) ->
  exists status error,
    POST cwd env video files db = (UploadError status error, files, db) /\
    (status = 500 <-> exists value, video = TextEntry value /\ value <> "") /\
    (status = 400 \/ status = 500).
Proof.
  intros Hv. destruct video as [|[|c v]|type content].
  - exists 400, "No video file provided". split; [done|].
    split; [|by left]. split; [done|]. by intros (? & ? & ?).
  - exists 400, "No video file provided". split; [done|].
    split; [|by left]. split; [done|]. intros (? & [= <-] & ?). done.
  - exists 500, "Failed to upload video". split; [done|].
    split; [|by right]. split; [|done]. intros _. eexists. split; done.
  - destruct (Hv type content eq_refl) as [H1 H2].
    exists 400, "Invalid file type. Please upload a video file.".
    split; [unfold POST; by rewrite H1, H2|].
    split; [|by left]. split; [done|]. by intros (? & ? & ?).
Qed.

Lemma rejected_upload_stores_nothing_witness :
  exists status error,
    POST "/srv/app" (MkUploadEnv [Byte.x3c] "t" true "http://h")
         (FileEntry "image/png" [Byte.x1a]) ∅ ∅ = (UploadError status error, ∅, ∅) /\
    (status = 400 \/ status = 500).
Proof.
  destruct (rejected_upload_stores_nothing "/srv/app"
              (MkUploadEnv [Byte.x3c] "t" true "http://h")
              (FileEntry "image/png" [Byte.x1a]) ∅ ∅) as (st & e & H & _ & Hs).
  - intros type content [= <- <-]. split; reflexivity.
  - exists st, e. split; [exact H | exact Hs].
Defined.

(** X27. After [deleteVideo] the video is gone and nothing else is: [GET]
    for a non-empty id answers 404 once that id was deleted, a video with
    another generated id is served as before, and deleting a video that has
    no file changes nothing. *)
Theorem deleted_video_is_not_found (dirs : list string) (files : Files)
    (r other : list Byte.byte) :
  Forall plain_name dirs ->
  r <> [] -> other <> r ->
  let cwd := absolute_dir dirs in
  let videoId := generateVideoId r in
  let files' := deleteVideo cwd videoId files in
  GET cwd (read files') videoId = JsonError 404 "Video not found" /\
  GET cwd (read files') (generateVideoId other)
    = GET cwd (read files) (generateVideoId other) /\
  (videoExists cwd (read files) videoId = false -> files' = files).
Proof.
  intros Hds Hr Hne cwd videoId files'. subst cwd videoId files'.
  unfold deleteVideo.
  assert (read (if bool_decide (is_Some (files !! getVideoPath (absolute_dir dirs)
                                                   (generateVideoId r)))
                then delete (getVideoPath (absolute_dir dirs) (generateVideoId r)) files
                else files)
               (getVideoPath (absolute_dir dirs) (generateVideoId r)) = None) as Hgone.
  { unfold read, Files in *. case_bool_decide as Hex; [by rewrite lookup_delete_eq|].
    by apply eq_None_not_Some. }
  split; [|split].
  - unfold GET, videoExists. rewrite Hgone.
    destruct (generateVideoId r) as [|c id] eqn:E.
    + destruct r; [done|discriminate E].
    + cbn [String.eqb]. rewrite bool_decide_eq_false_2; [done|].
      by intros [? ?].
  - case_bool_decide; [|done].
    unfold GET, videoExists, read, Files in *. rewrite lookup_delete_ne; [done|].
    intros E. apply Hne. symmetry. apply hex_inj.
    eapply hex_video_path_inj; eauto using hex_all_hex.
  - unfold videoExists, read. intros Hex%bool_decide_eq_false.
    by rewrite bool_decide_eq_false_2.
Qed.

Lemma deleted_video_is_not_found_witness :
  let files : Files := {[ "/srv/app/uploads/0af3.webm" := [Byte.x07] ]} in
  GET "/srv/app" (read (deleteVideo "/srv/app" (generateVideoId [Byte.x0a; Byte.xf3]) files))
      (generateVideoId [Byte.x0a; Byte.xf3])
    = JsonError 404 "Video not found".
Proof.
  intros files.
  destruct (deleted_video_is_not_found ["srv"; "app"] files
              [Byte.x0a; Byte.xf3] [Byte.x00]) as [H _].
  - repeat constructor; done.
  - done.
  - done.
  - exact H.
Defined.

End UploadFacts.
